(** * validator.py: the deterministic design-system linter, embedded in Rocq

    A shallow embedding of [validator.py] (the token-presence, colour,
    structure and bracket-balance checkers and their aggregation in
    [validate_component]) and of its caller, the loop [run_agent_loop] of
    [agent_loop.py] with its logging helpers, followed by the properties of
    the specification that are settled on it and by further properties of
    the code.

    Data model.
    - A Python [str] is a list of Unicode code points ([char := N]), so
      [len], indexing, slicing and concatenation are the list operations.
    - The design tokens are a Python [dict]: a [gmap str str]; [tokens[k]]
      raises [KeyError] on a missing key and [tokens.get(k, d)] does not.
    - Python sets are [gset str].
    - Exceptions are values of the [result] monad.
    - What the Python runtime takes from the Unicode character database
      ([str.lower], [str.strip]'s notion of white space, the classes [\w],
      [\s] and [\b] of [re], matching under [re.IGNORECASE]) is the
      interface [PyUnicode]; the validators are written over an arbitrary
      instance, and [ascii_tables] is the instance that agrees with CPython
      on ASCII text, used to run the examples.
    - What [run_agent_loop] does to the outside (reading the design
      system, calling the model, printing to stderr) is a tree of calls,
      [prog]; [generate_component] and [regenerate_component] of
      [generator.py], which ask a remote model, are calls to the outside
      and are not embedded. *)

From Stdlib Require Import NArith String Ascii DecimalString Lia.
From stdpp Require Import gmap list.

Local Open Scope N_scope.

(** ** Strings *)

Definition char := N.
Definition str := list char.

Definition c_of (a : ascii) : char := N_of_ascii a.
Arguments c_of _%_char.

(** [u "text"] is the Python literal ["text"] (ASCII literals only). *)
Fixpoint u (s : string) : str :=
  match s with
  | EmptyString => []
  | String a s' => c_of a :: u s'
  end.
Arguments u _%_string.

Definition LF : char := 10.          (* "\n" *)
Definition DQUOTE : char := 34.      (* the double quote *)
Definition SQUOTE : char := c_of "'".
Definition BACKTICK : char := c_of "`".
Definition BACKSLASH : char := c_of "\".
Definition SLASH : char := c_of "/".
Definition STAR : char := c_of "*".
Definition HASH : char := c_of "#".
(** U+2014, the dash of the SYNTAX_ERROR messages. *)
Definition EMDASH : str := [8212].

(** [f"{n}"] for a non-negative [int]. *)
Definition str_of_int (n : N) : str := u (NilZero.string_of_uint (N.to_uint n)).

(** [p] is a prefix of [s]: [s.startswith(p)]. *)
Fixpoint startswith (s p : str) : bool :=
  match p, s with
  | [], _ => true
  | _ :: _, [] => false
  | a :: p', b :: s' => (a =? b) && startswith s' p'
  end.

(** [needle in hay] on strings. *)
Fixpoint contains (hay needle : str) : bool :=
  startswith hay needle
  || match hay with
     | [] => false
     | _ :: hay' => contains hay' needle
     end.

(** ** The Unicode tables of the runtime *)

Class PyUnicode := {
  (** [s.lower()] *)
  str_lower : str -> str;
  (** [c.isspace()], which is also [\s] of [re] on [str] patterns *)
  is_space : char -> bool;
  (** [\w] of [re] on [str] patterns: alphanumeric or underscore *)
  is_word : char -> bool;
  (** under [re.IGNORECASE], the pattern literal [c] matches the character [d] *)
  ci_eq : char -> char -> bool
}.

Definition is_ascii_upper (c : char) : bool := (65 <=? c) && (c <=? 90).
Definition is_ascii_lower (c : char) : bool := (97 <=? c) && (c <=? 122).
Definition is_ascii_digit (c : char) : bool := (48 <=? c) && (c <=? 57).
Definition ascii_lower_char (c : char) : char := if is_ascii_upper c then c + 32 else c.

(** The tables restricted to ASCII: they agree with CPython on every ASCII
    string and leave the other code points alone. *)
Definition ascii_tables : PyUnicode := {|
  str_lower := map ascii_lower_char;
  is_space := fun c => ((9 <=? c) && (c <=? 13)) || ((28 <=? c) && (c <=? 32));
  is_word := fun c => is_ascii_upper c || is_ascii_lower c || is_ascii_digit c || (c =? 95);
  ci_eq := fun c d => ascii_lower_char c =? ascii_lower_char d
|}.

(** ** Exceptions *)

Inductive exn :=
| KeyError (k : str)
| AttributeError.   (* a method called on [None] *)

Inductive result (A : Type) :=
| Ok (a : A)
| Raise (e : exn).
Arguments Ok {A} a.
Arguments Raise {A} e.

Definition bind {A B} (r : result A) (f : A -> result B) : result B :=
  match r with
  | Ok a => f a
  | Raise e => Raise e
  end.

Notation "x <- r ;; k" := (bind r (fun x => k))
  (at level 100, r at next level, right associativity).

(** [d[k]] on a dict literal, kept as its list of items. *)
Fixpoint dict_get {V} (d : list (char * V)) (k : char) : option V :=
  match d with
  | [] => None
  | (k', v) :: d' => if k' =? k then Some v else dict_get d' k
  end.

Definition getitem {V} (d : list (char * V)) (k : char) : result V :=
  match dict_get d k with
  | Some v => Ok v
  | None => Raise (KeyError [k])
  end.

(** ** Regular expressions: the fragment of [re] the validators use

    Patterns are kept as syntax trees and run by a backtracking matcher with
    the priorities of [re]: alternatives are tried from left to right and
    the quantifiers are greedy. *)

Inductive regex :=
| Eps                                          (* the empty pattern *)
| Lit (c : char)                               (* a literal character *)
| Set_ (neg : bool) (ranges : list (char * char))  (* [a-f0-9], or [^...] when [neg] *)
| Word                                         (* \w *)
| Space                                        (* \s *)
| Bound                                        (* \b *)
| Cat (r1 r2 : regex)
| Alt (r1 r2 : regex)                          (* r1|r2 *)
| Star (r : regex)                             (* r*, greedy *)
| Group (r : regex).                           (* (r), the capturing group 1 *)

Definition Plus (r : regex) : regex := Cat r (Star r).       (* r+ *)
Definition Opt (r : regex) : regex := Alt r Eps.             (* r? *)

Fixpoint seq (rs : list regex) : regex :=
  match rs with
  | [] => Eps
  | [r] => r
  | r :: rs' => Cat r (seq rs')
  end.

(** [alts [r1; ...; rn]] is [r1|...|rn]. *)
Fixpoint alts (rs : list regex) : regex :=
  match rs with
  | [] => Set_ false []
  | [r] => r
  | r :: rs' => Alt r (alts rs')
  end.

(** A literal word. *)
Definition lits (s : string) : regex := seq (map Lit (u s)).
Arguments lits _%_string.

Fixpoint times (n : nat) (r : regex) : regex :=
  match n with
  | O => Eps
  | S n' => Cat r (times n' r)
  end.

Fixpoint upto (n : nat) (r : regex) : regex :=
  match n with
  | O => Eps
  | S n' => Opt (Cat r (upto n' r))
  end.

(** [r{lo,hi}], greedy. *)
Definition Rep (r : regex) (lo hi : nat) : regex := Cat (times lo r) (upto (hi - lo) r).

(** Where the matcher stands: the character before the position (for
    [\b]), the input from the position on, and the text of group 1. *)
Record cursor := {
  prev : option char;
  rest : str;
  grp : option str
}.

(** A match object: [group(0)] and [group(1)] ([None] when the group took
    no part in the match). *)
Record re_match := {
  group0 : str;
  group1 : option str
}.

Definition in_ranges (ranges : list (char * char)) (c : char) : bool :=
  existsb (fun '(lo, hi) => (lo <=? c) && (c <=? hi)) ranges.

Section Regex.
Context `{PyUnicode}.

Definition word_at (o : option char) : bool :=
  match o with
  | Some c => is_word c
  | None => false
  end.

(** One character of the input against a one-character pattern.  The flag
    [ic] is [re.IGNORECASE]; no pattern of the validator uses a character
    set under it. *)
Definition step (ic : bool) (r : regex) (c : char) : bool :=
  match r with
  | Lit a => if ic then ci_eq a c else a =? c
  | Set_ neg ranges => xorb neg (in_ranges ranges c)
  | Word => is_word c
  | Space => is_space c
  | _ => false
  end.

Definition advance (p : cursor) (c : char) (t : str) : cursor :=
  {| prev := Some c; rest := t; grp := grp p |}.

Definition capture (p q : cursor) : cursor :=
  {| prev := prev q; rest := rest q;
     grp := Some (take (length (rest p) - length (rest q)) (rest p)) |}.

(** The rounds of a greedy star: one more round of [body] if it can be
    followed by a full match, else go on with [k].  A round must consume a
    character, which the bodies used here ([\s], [\w] and a character set)
    always do, so the number of characters left bounds the number of rounds:
    that is the [fuel] (see [star_loop_fuel]). *)
Definition star_loop {A} (body : cursor -> (cursor -> option A) -> option A)
  (k : cursor -> option A) : nat -> cursor -> option A :=
  fix loop (fuel : nat) (p : cursor) : option A :=
    match fuel with
    | O => k p
    | S fuel' =>
      match body p (fun q =>
              if (length (rest q) <? length (rest p))%nat then loop fuel' q else None) with
      | Some a => Some a
      | None => k p
      end
    end.

(** [exec ic r p k]: match [r] at [p], then go on with [k]; the first
    success in priority order is the result. *)
Fixpoint exec {A} (ic : bool) (r : regex) (p : cursor) (k : cursor -> option A)
  {struct r} : option A :=
  match r with
  | Eps => k p
  | Lit _ | Set_ _ _ | Word | Space =>
    match rest p with
    | c :: t => if step ic r c then k (advance p c t) else None
    | [] => None
    end
  | Bound =>
    if xorb (word_at (prev p)) (word_at (head (rest p))) then k p else None
  | Cat r1 r2 => exec ic r1 p (fun q => exec ic r2 q k)
  | Alt r1 r2 =>
    match exec ic r1 p k with
    | Some a => Some a
    | None => exec ic r2 p k
    end
  | Star r1 => star_loop (exec ic r1) k (length (rest p)) p
  | Group r1 => exec ic r1 p (fun q => k (capture p q))
  end.

(** A match starting exactly at the position, [before] being the character
    in front of it. *)
Definition match_here (ic : bool) (r : regex) (before : option char) (s : str)
  : option re_match :=
  exec ic r {| prev := before; rest := s; grp := None |}
    (fun q => Some {| group0 := take (length s - length (rest q)) s; group1 := grp q |}).

(** [pattern.search(s)], from the position reached. *)
Fixpoint search_from (ic : bool) (r : regex) (before : option char) (s : str)
  : option re_match :=
  match match_here ic r before s with
  | Some m => Some m
  | None =>
    match s with
    | [] => None
    | c :: s' => search_from ic r (Some c) s'
    end
  end.

Definition re_search (ic : bool) (r : regex) (s : str) : option re_match :=
  search_from ic r None s.

(** [pattern.finditer(s)]: the matches from left to right, the search
    resuming where the last match ended ([skip] counts the characters of
    that match still to be passed).  Every pattern iterated by the
    validator starts with a literal character, so no match is empty. *)
Fixpoint finditer_from (ic : bool) (r : regex) (skip : nat) (before : option char)
  (s : str) : list re_match :=
  match skip with
  | S skip' =>
    match s with
    | [] => []
    | c :: s' => finditer_from ic r skip' (Some c) s'
    end
  | O =>
    match match_here ic r before s with
    | Some m =>
      m :: match s with
           | [] => []
           | c :: s' => finditer_from ic r (Nat.pred (length (group0 m))) (Some c) s'
           end
    | None =>
      match s with
      | [] => []
      | c :: s' => finditer_from ic r 0 (Some c) s'
      end
    end
  end.

Definition re_finditer (ic : bool) (r : regex) (s : str) : list re_match :=
  finditer_from ic r 0 None s.

End Regex.

(** ** Constants *)

(** CSS keywords that never represent a colour value. *)
Definition _SAFE_CSS_KEYWORDS : gset str :=
  {[ u "transparent"; u "inherit"; u "currentcolor"; u "initial"; u "unset"; u "none" ]}.

(** The forbidden named colours.  The source keeps them in a [frozenset] and
    joins them into an alternation in the set's iteration order; they are
    listed here in the order they are written.  No name is a prefix of
    another, so at most one alternative can match at a position and the
    order has no effect on the matches. *)
Definition _NAMED_COLORS : list string :=
  [ "red"; "blue"; "green"; "yellow"; "orange"; "pink"; "purple";
    "brown"; "cyan"; "magenta"; "lime"; "teal"; "maroon"; "navy";
    "olive"; "aqua"; "fuchsia"; "coral"; "crimson"; "gold";
    "indigo"; "khaki"; "lavender"; "salmon"; "sienna"; "tan";
    "tomato"; "turquoise"; "violet"; "wheat" ]%string.

(** ** The design tokens *)

(** [tokens[key]] *)
Definition subscript (tokens : gmap str str) (key : string) : result str :=
  match tokens !! u key with
  | Some v => Ok v
  | None => Raise (KeyError (u key))
  end.
Arguments subscript tokens key%_string.

(** [tokens.get(key, default)] *)
Definition get_default (tokens : gmap str str) (key : string) (default : str) : str :=
  match tokens !! u key with
  | Some v => v
  | None => default
  end.
Arguments get_default tokens key%_string default.

(** The truth value of an optional match object. *)
Definition truthy {A} (o : option A) : bool :=
  match o with
  | Some _ => true
  | None => false
  end.

(** ** The patterns *)

(** The pattern "\b(rgba?|hsla?|hwb)\s*\(", compiled with IGNORECASE. *)
Definition functional_pattern : regex :=
  seq [ Bound;
        Group (alts [ Cat (lits "rgb") (Opt (Lit (c_of "a")));
                      Cat (lits "hsl") (Opt (Lit (c_of "a")));
                      lits "hwb" ]);
        Star Space;
        Lit (c_of "(") ].

(** The pattern "#[0-9a-fA-F]{3,8}\b". *)
Definition hex_digit : regex :=
  Set_ false [(c_of "0", c_of "9"); (c_of "a", c_of "f"); (c_of "A", c_of "F")].
Definition hex_pattern : regex :=
  seq [ Lit HASH; Rep hex_digit 3 8; Bound ].

(** The pattern ":\s*(red|blue|...|wheat)\b", compiled with IGNORECASE. *)
Definition named_pattern : regex :=
  seq [ Lit (c_of ":"); Star Space; Group (alts (map lits _NAMED_COLORS)); Bound ].

(** The pattern "\bexport\s+class\b". *)
Definition export_class_pattern : regex :=
  seq [ Bound; lits "export"; Plus Space; lits "class"; Bound ].

Definition ts_member_patterns : list (bool * regex) :=
  [ (* "\b(public|private|protected)\s+\w+", IGNORECASE *)
    (true, seq [ Bound;
                 Group (alts [ lits "public"; lits "private"; lits "protected" ]);
                 Plus Space; Plus Word ]);
    (* "\b\w+\s*:\s*(string|number|...|EventEmitter)\b" *)
    (false, seq [ Bound; Plus Word; Star Space; Lit (c_of ":"); Star Space;
                  Group (alts [ lits "string"; lits "number"; lits "boolean"; lits "any";
                                lits "void"; lits "object"; lits "Array";
                                lits "Observable"; lits "Subject"; lits "EventEmitter" ]);
                  Bound ]);
    (* line 274: a word, an argument list up to the first closing parenthesis,
       an optional return type after a colon, and an opening brace *)
    (false, seq [ Bound; Plus Word; Star Space; Lit (c_of "(");
                  Star (Set_ true [(c_of ")", c_of ")")]); Lit (c_of ")"); Star Space;
                  Opt (seq [ Lit (c_of ":"); Star Space; Plus Word; Star Space ]);
                  Lit (c_of "{") ]);
    (* "\b(constructor|ngOnInit|ngOnDestroy|ngOnChanges|ngAfterViewInit)\b" *)
    (false, seq [ Bound;
                  Group (alts [ lits "constructor"; lits "ngOnInit"; lits "ngOnDestroy";
                                lits "ngOnChanges"; lits "ngAfterViewInit" ]);
                  Bound ]) ].

(** ** The messages *)

Definition missing_primary_msg (primary_color : str) : str :=
  u "MISSING_PRIMARY_COLOR: The primary colour '" ++ primary_color ++ u "' "
  ++ u "was not found in the generated component. "
  ++ u "It must be applied to at least one interactive or accent element.".

Definition missing_radius_msg (radius : str) : str :=
  u "MISSING_BORDER_RADIUS: The design-system border-radius '" ++ radius ++ u "' "
  ++ u "was not found in the component styles. "
  ++ u "Apply it to cards, inputs, and buttons.".

Definition missing_font_msg (font : str) : str :=
  u "MISSING_FONT_FAMILY: The design-system font-family '" ++ font ++ u "' "
  ++ u "was not found in the component styles. "
  ++ u "Set font-family: '" ++ font ++ u "', sans-serif on the host or wrapper element.".

Definition functional_msg (primary_color secondary_color : str) : str :=
  u "UNAUTHORIZED_COLOR_FORMAT: Functional colour notations (rgba, rgb, "
  ++ u "hsl, hsla, hwb) are not permitted. "
  ++ u "Use only the exact hex tokens defined in the design system: "
  ++ primary_color ++ u " and " ++ secondary_color ++ u ".".

Definition hex_msg (literal primary_color secondary_color : str) : str :=
  u "UNAUTHORISED_HEX_COLOR: '" ++ literal ++ u "' is not in the design "
  ++ u "system. Approved hex values: "
  ++ primary_color ++ u ", " ++ secondary_color ++ u ", "
  ++ u "#ffffff, #000000.".

Definition named_msg (name : str) : str :=
  u "UNAUTHORISED_NAMED_COLOR: Named CSS colour '" ++ name ++ u "' "
  ++ u "is not permitted. Use only design-system hex tokens.".

Definition no_decorator_msg : str :=
  u "INCOMPLETE_STRUCTURE: Missing @Component decorator. "
  ++ u "The generated output must be a valid Angular standalone component.".

Definition no_class_msg : str :=
  u "INCOMPLETE_STRUCTURE: Missing 'export class' declaration. "
  ++ u "The component class must be exported for Angular to register it.".

Definition truncated_msg : str :=
  u "INCOMPLETE_STRUCTURE: Component source does not end with '}'. "
  ++ u "The class body may be truncated or improperly closed.".

Definition no_member_msg : str :=
  u "INCOMPLETE_STRUCTURE: No TypeScript class members (typed properties "
  ++ u "or methods) detected inside the component class body. "
  ++ u "The class appears to be empty.".

Definition spacing_msg (spacing : str) : str :=
  u "SPACING_SUGGESTION: The spacing token '" ++ spacing ++ u "' was not detected. "
  ++ u "Consider applying it to padding/margin for visual consistency.".

(** ** Internal helper *)

(** Expand a 3-digit hex shorthand to the 7-character form [#rrggbb]. *)
Definition _normalise_hex `{PyUnicode} (h : str) : str :=
  let h := str_lower h in
  match h with
  | [_; h1; h2; h3] => [HASH; h1; h1; h2; h2; h3; h3]     (* len(h) == 4 *)
  | _ => h
  end.

Section Validators.
Context `{PyUnicode}.

(** ** Sub-validator 1: design-token presence *)

Definition validate_design_tokens (code : str) (tokens : gmap str str) : result (list str) :=
  let errors : list str := [] in
  (* Primary colour *)
  primary_color <- subscript tokens "primary_color" ;;
  let primary := str_lower primary_color in
  let errors :=
    if negb (contains (str_lower code) primary)
    then errors ++ [missing_primary_msg primary_color]
    else errors in
  (* Border radius *)
  radius <- subscript tokens "border_radius" ;;
  let errors :=
    if negb (contains code radius)
    then errors ++ [missing_radius_msg radius]
    else errors in
  (* Font family *)
  font <- subscript tokens "font_family" ;;
  let errors :=
    if negb (contains (str_lower code) (str_lower font))
    then errors ++ [missing_font_msg font]
    else errors in
  Ok errors.

(** ** Sub-validator 2: strict colour enforcement *)

(** Lines 188-191: the 3-digit alias of a 7-character value whose channels
    each repeat one digit. *)
Definition shorthand (h : str) : option str :=
  match h with
  | [_; r0; r1; g0; g1; b0; b1] =>
    if (r0 =? r1) && (g0 =? g1) && (b0 =? b1) then Some [HASH; r0; g0; b0] else None
  | _ => None
  end.

(** Lines 187-191: the loop over a snapshot of [approved_hex]. *)
Definition add_shorthands (approved_hex : gset str) : gset str :=
  fold_left (fun acc h =>
               match shorthand h with
               | Some a => acc ∪ {[ a ]}
               | None => acc
               end)
            (elements approved_hex) approved_hex.

(** Lines 199-208: the body of the loop over the hex literals; the state is
    [seen_violations] and [errors]. *)
Definition hex_step (primary_color secondary_color : str) (normalised_approved : gset str)
  (acc : gset str * list str) (m : re_match) : gset str * list str :=
  let '(seen_violations, errors) := acc in
  let found := str_lower (group0 m) in
  let normalised := _normalise_hex found in
  if bool_decide (normalised ∉ normalised_approved) && bool_decide (found ∉ seen_violations)
  then (seen_violations ∪ {[ found ]},
        errors ++ [hex_msg (group0 m) primary_color secondary_color])
  else acc.

(** Lines 215-220: the body of the loop over the named colours. *)
Definition named_step (errors : list str) (m : re_match) : result (list str) :=
  match group1 m with
  | None => Raise AttributeError
  | Some name =>
    let colour_name := str_lower name in
    if bool_decide (colour_name ∉ _SAFE_CSS_KEYWORDS)
    then Ok (errors ++ [named_msg name])
    else Ok errors
  end.

Fixpoint named_loop (ms : list re_match) (errors : list str) : result (list str) :=
  match ms with
  | [] => Ok errors
  | m :: ms' => errors' <- named_step errors m ;; named_loop ms' errors'
  end.

Definition validate_colors (code : str) (tokens : gmap str str) : result (list str) :=
  let errors : list str := [] in
  (* Rule 1: ban all functional colour notations *)
  errors <-
    (if truthy (re_search true functional_pattern code)
     then primary_color <- subscript tokens "primary_color" ;;
          secondary_color <- subscript tokens "secondary_color" ;;
          Ok (errors ++ [functional_msg primary_color secondary_color])
     else Ok errors) ;;
  (* Rule 2: reject non-approved hex literals *)
  primary_color <- subscript tokens "primary_color" ;;
  secondary_color <- subscript tokens "secondary_color" ;;
  let approved_hex : gset str :=
    {[ str_lower primary_color; str_lower secondary_color;
       u "#ffffff"; u "#fff"; u "#000000"; u "#000" ]} in
  let approved_hex := add_shorthands approved_hex in
  let normalised_approved : gset str := set_map _normalise_hex approved_hex in
  let seen_violations : gset str := ∅ in
  let '(seen_violations, errors) :=
    fold_left (hex_step primary_color secondary_color normalised_approved)
              (re_finditer false hex_pattern code) (seen_violations, errors) in
  (* Rule 3: reject named CSS colour keywords *)
  named_loop (re_finditer true named_pattern code) errors.

(** ** Sub-validator 3: Angular component structural integrity *)

Fixpoint lstrip (s : str) : str :=
  match s with
  | [] => []
  | c :: s' => if is_space c then lstrip s' else s
  end.

(** [s.strip()] *)
Definition strip (s : str) : str := rev (lstrip (rev (lstrip s))).

Definition validate_structure (code : str) : list str :=
  let errors : list str := [] in
  (* @Component decorator *)
  let errors :=
    if negb (contains code (u "@Component")) then errors ++ [no_decorator_msg] else errors in
  (* export class *)
  let errors :=
    if negb (truthy (re_search false export_class_pattern code))
    then errors ++ [no_class_msg] else errors in
  (* Ends with closing brace *)
  let stripped := strip code in
  let errors :=
    match last stripped with
    | Some c => if negb (c =? c_of "}") then errors ++ [truncated_msg] else errors
    | None => errors               (* [stripped] is empty *)
    end in
  (* At least one TypeScript class member, only checked when class exists *)
  if truthy (re_search false export_class_pattern code) then
    let has_member := existsb (fun '(ic, p) => truthy (re_search ic p code)) ts_member_patterns in
    if negb has_member then errors ++ [no_member_msg] else errors
  else errors.

End Validators.

(** ** Sub-validator 4: bracket, brace and parenthesis balance *)

Definition openers : list (char * char) :=
  [(c_of "(", c_of ")"); (c_of "{", c_of "}"); (c_of "[", c_of "]")].
Definition closers : list (char * char) :=
  [(c_of ")", c_of "("); (c_of "}", c_of "{"); (c_of "]", c_of "[")].
Definition bracket_names : list (char * str) :=
  [(c_of "(", u "opening parenthesis '('");
   (c_of ")", u "closing parenthesis ')'");
   (c_of "{", u "opening brace '{'");
   (c_of "}", u "closing brace '}'");
   (c_of "[", u "opening bracket '['");
   (c_of "]", u "closing bracket ']'")].

(** The local variables of [validate_syntax]; the index [i] is kept as the
    suffix of [code] still to be read.  [stack] is the Python list: the
    bottom is its first element and the top its last. *)
Record scan_state := {
  stack : list (char * N);
  line : N;
  syntax_errors : list str
}.

Definition set_line (st : scan_state) (l : N) : scan_state :=
  {| stack := stack st; line := l; syntax_errors := syntax_errors st |}.
Definition push (st : scan_state) (e : char * N) : scan_state :=
  {| stack := stack st ++ [e]; line := line st; syntax_errors := syntax_errors st |}.
Definition pop (st : scan_state) : scan_state :=
  {| stack := removelast (stack st); line := line st; syntax_errors := syntax_errors st |}.
Definition report_error (st : scan_state) (m : str) : scan_state :=
  {| stack := stack st; line := line st; syntax_errors := syntax_errors st ++ [m] |}.

Definition unexpected_msg (name : str) (l : N) (ch : char) : str :=
  u "SYNTAX_ERROR: Unexpected " ++ name ++ u " on line " ++ str_of_int l ++ u " "
  ++ EMDASH ++ u " no matching opener exists. "
  ++ u "Check for an extra or misplaced '" ++ [ch] ++ u "'.".

Definition mismatch_msg (closer_name : str) (l : N) (opener_name : str) (opener_line : N) : str :=
  u "SYNTAX_ERROR: Mismatched brackets " ++ EMDASH ++ u " " ++ closer_name ++ u " on "
  ++ u "line " ++ str_of_int l ++ u " does not match " ++ opener_name ++ u " "
  ++ u "opened on line " ++ str_of_int opener_line ++ u ".".

Definition unclosed_msg (opener_name : str) (opener_line : N) (closer : char) : str :=
  u "SYNTAX_ERROR: Unclosed " ++ opener_name ++ u " opened on "
  ++ u "line " ++ str_of_int opener_line ++ u " " ++ EMDASH ++ u " missing closing '"
  ++ [closer] ++ u "'.".

(** Lines 368-389: the bracket matching done on a character [ch] read
    outside strings and comments. *)
Definition bracket_step (ch : char) (st : scan_state) : result scan_state :=
  match dict_get openers ch with
  | Some _ => Ok (push st (ch, line st))
  | None =>
    match dict_get closers ch with
    | Some expected =>
      match last (stack st) with
      | None =>
        name <- getitem bracket_names ch ;;
        Ok (report_error st (unexpected_msg name (line st) ch))
      | Some (opener_char, opener_line) =>
        if negb (opener_char =? expected) then
          closer_name <- getitem bracket_names ch ;;
          opener_name <- getitem bracket_names opener_char ;;
          Ok (pop (report_error st
                     (mismatch_msg closer_name (line st) opener_name opener_line)))
        else Ok (pop st)
      end
    | None => Ok st
    end
  end.

(** Lines 337-346: the loop that skips a string literal.  [t] is the input
    from index [i] on, and [k] is what the outer loop does once this loop is
    left, given the input still to be read and the line counter. *)
Definition in_string {A} (k : str -> N -> A) (quote : char) : str -> N -> A :=
  fix loop (t : str) (l : N) : A :=
    match t with
    | [] => k t l
    | c :: t1 =>
      let l := if c =? LF then l + 1 else l in
      match t1 with
      | _ :: t2 =>
        if c =? BACKSLASH then loop t2 l     (* i += 2: the escaped character *)
        else if c =? quote then k t1 l
        else loop t1 l
      | [] =>                                 (* i + 1 = length *)
        if c =? quote then k t1 l else loop t1 l
      end
    end.

(** Lines 351-352: the loop that skips a [//] comment up to, and not
    including, the next newline. *)
Definition in_line_comment {A} (k : str -> A) : str -> A :=
  fix loop (t : str) : A :=
    match t with
    | [] => k t
    | c :: t1 => if c =? LF then k t else loop t1
    end.

(** Lines 358-364: the loop that skips a block comment; it runs while
    [i < length - 1], so it leaves a last character to the outer loop. *)
Definition in_block_comment {A} (k : str -> N -> A) : str -> N -> A :=
  fix loop (t : str) (l : N) : A :=
    match t with
    | [] => k t l
    | c :: t1 =>
      match t1 with
      | [] => k t l
      | d :: t2 =>
        let l := if c =? LF then l + 1 else l in
        if (c =? STAR) && (d =? SLASH) then k t2 l else loop t1 l
      end
    end.

Definition is_quote (ch : char) : bool :=
  (ch =? SQUOTE) || (ch =? DQUOTE) || (ch =? BACKTICK).

(** Lines 324-391: the outer [while i < length] loop. *)
Fixpoint scan (s : str) (st : scan_state) {struct s} : result scan_state :=
  match s with
  | [] => Ok st
  | ch :: rest =>
    if ch =? LF then scan rest (set_line st (line st + 1))
    else if is_quote ch then
      in_string (fun t l => scan t (set_line st l)) ch rest (line st)
    else
      match rest with
      | d :: rest2 =>
        if (ch =? SLASH) && (d =? SLASH) then
          (* the loop starts on the first slash, which is not a newline *)
          in_line_comment (fun t => scan t st) rest
        else if (ch =? SLASH) && (d =? STAR) then
          in_block_comment (fun t l => scan t (set_line st l)) rest2 (line st)
        else
          st' <- bracket_step ch st ;; scan rest st'
      | [] =>
        st' <- bracket_step ch st ;; scan rest st'
      end
  end.

(** Lines 394-398: one message per entry left on the stack. *)
Fixpoint unclosed (stk : list (char * N)) (errs : list str) : result (list str) :=
  match stk with
  | [] => Ok errs
  | (opener_char, opener_line) :: stk' =>
    name <- getitem bracket_names opener_char ;;
    closer <- getitem openers opener_char ;;
    unclosed stk' (errs ++ [unclosed_msg name opener_line closer])
  end.

Definition scan_init : scan_state := {| stack := []; line := 1; syntax_errors := [] |}.

Definition validate_syntax (code : str) : result (list str) :=
  st <- scan code scan_init ;;
  unclosed (stack st) (syntax_errors st).

Section Aggregation.
Context `{PyUnicode}.

(** ** Warning-only check *)

Definition _warn_spacing_token (code : str) (tokens : gmap str str) : list str :=
  let spacing := get_default tokens "spacing" [] in
  if negb (bool_decide (spacing = [])) && negb (contains code spacing)
  then [spacing_msg spacing]
  else [].

(** ** Public top-level validator *)

Record report := {
  is_valid : bool;
  errors : list str;
  warnings : list str
}.

Definition validate_component (code : str) (tokens : gmap str str) : result report :=
  let errors : list str := [] in
  let warnings : list str := [] in
  (* Hard checks (order: tokens -> colour -> structure -> syntax) *)
  e <- validate_design_tokens code tokens ;;
  let errors := errors ++ e in
  e <- validate_colors code tokens ;;
  let errors := errors ++ e in
  let errors := errors ++ validate_structure code in
  e <- validate_syntax code ;;
  let errors := errors ++ e in
  (* Soft checks *)
  let warnings := warnings ++ _warn_spacing_token code tokens in
  Ok {| is_valid := (length errors =? 0)%nat; errors := errors; warnings := warnings |}.

End Aggregation.

(** ** The vocabulary of the properties *)

(** Every entry of the stack is an opening bracket. *)
Definition stack_ok (st : scan_state) : Prop :=
  Forall (fun e => is_Some (dict_get openers e.1)) (stack st).

(** The number of newline characters of a text. *)
Definition newlines (s : str) : N :=
  N.of_nat (length (filter (fun c => c = LF) (s : list char))).

(** The line of the character at index [i] of [code]: one more than the
    number of newline characters in front of it. *)
Definition line_of (code : str) (i : nat) : N :=
  1 + newlines (take i code).

(** The eight error categories and the warning category. *)
Definition error_tags : list string :=
  [ "MISSING_PRIMARY_COLOR"; "MISSING_BORDER_RADIUS"; "MISSING_FONT_FAMILY";
    "UNAUTHORIZED_COLOR_FORMAT"; "UNAUTHORISED_HEX_COLOR"; "UNAUTHORISED_NAMED_COLOR";
    "INCOMPLETE_STRUCTURE"; "SYNTAX_ERROR" ]%string.

(** [m] begins with one of the error tags followed by a colon. *)
Definition has_error_tag (m : str) : bool :=
  existsb (fun tag => startswith m (u tag ++ u ":")) error_tags.

Definition has_warning_tag (m : str) : bool :=
  startswith m (u "SPACING_SUGGESTION:").

Definition is_lower_hex_digit (c : char) : bool :=
  is_ascii_digit c || ((97 <=? c) && (c <=? 102)).
Definition is_hex_digit (c : char) : bool :=
  is_lower_hex_digit c || ((65 <=? c) && (c <=? 70)).

(** A hex literal as the colour checker matches it: [#] and 3 to 8 hex digits. *)
Definition is_hex_literal (x : str) : bool :=
  match x with
  | h :: ds => (h =? HASH) && (3 <=? length ds)%nat && (length ds <=? 8)%nat
               && forallb is_hex_digit ds
  | [] => false
  end.

(** The lowercase 6-digit form [#rrggbb]. *)
Definition is_lower_hex6 (x : str) : bool :=
  match x with
  | h :: ds => (h =? HASH) && (length ds =? 6)%nat && forallb is_lower_hex_digit ds
  | [] => false
  end.

Section Vocabulary.
Context `{PyUnicode}.

(** The parts of [validate_colors], given the two colour tokens. *)
Definition normalised_approved_for (primary_color secondary_color : str) : gset str :=
  set_map _normalise_hex
    (add_shorthands {[ str_lower primary_color; str_lower secondary_color;
                       u "#ffffff"; u "#fff"; u "#000000"; u "#000" ]}).

Definition functional_errors (code primary_color secondary_color : str) : list str :=
  if truthy (re_search true functional_pattern code)
  then [functional_msg primary_color secondary_color]
  else [].

Definition hex_errors (code primary_color secondary_color : str) : list str :=
  (fold_left (hex_step primary_color secondary_color
                (normalised_approved_for primary_color secondary_color))
             (re_finditer false hex_pattern code) (∅, [])).2.

(** The hex literals of the source, as matched, from left to right. *)
Definition hex_literals (code : str) : list str :=
  group0 <$> re_finditer false hex_pattern code.

(** The literal [t] is not in the approved palette. *)
Definition disallowed (primary_color secondary_color t : str) : Prop :=
  _normalise_hex (str_lower t) ∉ normalised_approved_for primary_color secondary_color.

End Vocabulary.

(** ** A design system and a component to run the validator on *)

Definition demo_tokens : gmap str str :=
  <[ u "primary_color" := u "#6366f1" ]>
  (<[ u "secondary_color" := u "#f1f5f9" ]>
  (<[ u "border_radius" := u "8px" ]>
  (<[ u "font_family" := u "Inter" ]>
  (<[ u "spacing" := u "16px" ]> ∅)))).

Definition demo_code : str :=
  u "@Component({ selector: 'app-card', styles: [`.card { color: #6366F1; "
  ++ u "border-radius: 8px; font-family: 'Inter', sans-serif; padding: 16px; }`] })"
  ++ [LF] ++ u "export class CardComponent { title: string = 'x'; }" ++ [LF].

(** The five required keys are present. *)
Definition complete (tokens : gmap str str) : Prop :=
  is_Some (tokens !! u "primary_color")
  /\ is_Some (tokens !! u "secondary_color")
  /\ is_Some (tokens !! u "border_radius")
  /\ is_Some (tokens !! u "font_family")
  /\ is_Some (tokens !! u "spacing").

(** ** More vocabulary: texts the scanner is run on *)

(** A character that is neither a bracket, nor a quote, nor a slash. *)
Definition plain_char (c : char) : bool :=
  negb (is_quote c) && negb (c =? SLASH)
  && negb (truthy (dict_get openers c)) && negb (truthy (dict_get closers c)).

(** Texts made of plain characters and of properly nested pairs of
    brackets, each opener closed by its own closer. *)
Inductive balanced : str -> Prop :=
| balanced_nil : balanced []
| balanced_plain (c : char) (s : str) :
    plain_char c = true -> balanced s -> balanced (c :: s)
| balanced_pair (o c : char) (s t : str) :
    dict_get openers o = Some c -> balanced s -> balanced t ->
    balanced (o :: s ++ c :: t).

(** The inside of a string literal quoted by [q]: characters other than
    [q] and the backslash, and backslashes each followed by one character
    of any kind. *)
Inductive string_body (q : char) : str -> Prop :=
| string_body_nil : string_body q []
| string_body_char (c : char) (s : str) :
    c <> q -> c <> BACKSLASH -> string_body q s -> string_body q (c :: s)
| string_body_escape (c : char) (s : str) :
    string_body q s -> string_body q (BACKSLASH :: c :: s).

(** [needle] occurs in [hay]: some text, then [needle], then some text. *)
Definition occurs (needle hay : str) : Prop :=
  exists pre post, hay = pre ++ needle ++ post.

(** Two token sets hold the same thing under each of the [keys]. *)
Definition agree_on (keys : list string) (tokens tokens' : gmap str str) : Prop :=
  Forall (fun key => tokens !! u key = tokens' !! u key) keys.

(** * agent_loop.py: the generate, validate and correct loop

    [run_agent_loop] talks to the outside: it reads the design system,
    calls the model to generate and to correct a component, and prints to
    stderr.  It is embedded as the tree of the calls it makes, each
    continued on what the call returns; [run] plays a tree against an
    arbitrary outside and records the calls made, in order.  A call that
    raises ends the run, as nothing in [run_agent_loop] catches an
    exception. *)

(** ** [str] and [repr] of the values put in the messages *)

(** [f"{n}"] for an [int] of either sign. *)
Definition str_of_Z (z : Z) : str := u (NilZero.string_of_int (Z.to_int z)).

(** [range(lo, hi)]. *)
Definition range (lo hi : Z) : list Z := seqZ lo (hi - lo).

(** [c.isprintable()], which [repr] consults for the characters above
    U+007F. *)
Class PyPrintable := is_printable : char -> bool.

(** No character above U+007F is taken as printable: right on ASCII text. *)
Definition ascii_printable : PyPrintable := fun _ => false.

Definition lower_hex_digit (n : N) : char :=
  if n <? 10 then c_of "0" + n else c_of "a" + (n - 10).

(** [n] in lower-case hexadecimal, on [width] digits. *)
Fixpoint hex_fixed (width : nat) (n : N) : str :=
  match width with
  | O => []
  | S w => hex_fixed w (n / 16) ++ [lower_hex_digit (n mod 16)]
  end.

Section Repr.
Context `{PyPrintable}.

(** One character of [repr(s)], inside the quotes [quote]. *)
Definition repr_char (quote ch : char) : str :=
  if (ch =? quote) || (ch =? BACKSLASH) then [BACKSLASH; ch]
  else if ch =? 9 then u "\t"
  else if ch =? 10 then u "\n"
  else if ch =? 13 then u "\r"
  else if (ch <? 32) || (ch =? 127) then u "\x" ++ hex_fixed 2 ch
  else if ch <? 127 then [ch]
  else if is_printable ch then [ch]
  else if ch <=? 255 then u "\x" ++ hex_fixed 2 ch
  else if ch <=? 65535 then u "\u" ++ hex_fixed 4 ch
  else u "\U" ++ hex_fixed 8 ch.

(** [repr(s)] for a [str]: double quotes when [s] holds a single quote
    and no double quote, single quotes otherwise. *)
Definition repr_str (s : str) : str :=
  let quote :=
    if bool_decide (SQUOTE ∈ s) && negb (bool_decide (DQUOTE ∈ s))
    then DQUOTE else SQUOTE in
  [quote] ++ concat (repr_char quote <$> s) ++ [quote].

(** [sep.join(items)]. *)
Fixpoint join (sep : str) (items : list str) : str :=
  match items with
  | [] => []
  | [x] => x
  | x :: rest => x ++ sep ++ join sep rest
  end.

(** [repr(l)] for a list of [str]. *)
Definition repr_list (l : list str) : str :=
  u "[" ++ join (u ", ") (repr_str <$> l) ++ u "]".

End Repr.

(** ** Calls to the outside and programs over them *)

(** The calls of [run_agent_loop], indexed by what they return. *)
Inductive action : Type -> Type :=
| call_load_design_system : action (gmap str str)
| call_generate_component (description : str) (tokens : gmap str str) (model : str) :
    action str
| call_regenerate_component (original_code : str) (errors : list str)
    (description : str) (tokens : gmap str str) (model : str) : action str
| call_print_stderr (message : str) : action unit.

(** A computation: it returns, raises an exception of the validator, or
    makes a call and goes on with what the call returns. *)
Inductive prog (A : Type) : Type :=
| Return (a : A)
| Throw (e : exn)
| Do (X : Type) (a : action X) (k : X -> prog A).
Arguments Return {A} a.
Arguments Throw {A} e.
Arguments Do {A X} a k.

Fixpoint then_ {A B} (p : prog A) (k : A -> prog B) : prog B :=
  match p with
  | Return a => k a
  | Throw e => Throw e
  | Do a k' => Do a (fun x => then_ (k' x) k)
  end.

Notation "x <~ p ;; k" := (then_ p (fun x => k))
  (at level 100, p at next level, right associativity).

Definition call {X} (a : action X) : prog X := Do a Return.

(** A validator's result, in a program. *)
Definition lift {A} (r : result A) : prog A :=
  match r with
  | Ok a => Return a
  | Raise e => Throw e
  end.

(** ** Internal logging helpers *)

Definition _log (verbose : bool) (message : str) : prog unit :=
  if verbose then call (call_print_stderr message) else Return tt.

(** The [for] loop of [_log_errors] and of [_log_warnings]. *)
Fixpoint print_indented (lines : list str) : prog unit :=
  match lines with
  | [] => Return tt
  | line :: lines =>
      _ <~ call (call_print_stderr (u "    " ++ line)) ;;
      print_indented lines
  end.

Definition _log_errors (verbose : bool) (errors : list str) : prog unit :=
  if negb verbose then Return tt else print_indented errors.

(** The truth value of a list. *)
Definition nonempty {A} (l : list A) : bool :=
  match l with
  | [] => false
  | _ :: _ => true
  end.

Definition _log_warnings (verbose : bool) (warnings : list str) : prog unit :=
  if negb verbose || negb (nonempty warnings) then Return tt
  else print_indented warnings.

(** ** The loop *)

Definition MAX_RETRIES : Z := 2.

Section AgentLoop.
Context `{PyUnicode} `{PyPrintable}.

Section Body.
Variables (description : str) (max_retries : Z) (model : str) (verbose : bool).
Variable tokens : gmap str str.

(** Lines 87-118: the [for] loop over the attempts left, with the code
    and the report of the last validation, and what follows the loop. *)
Fixpoint retry_loop (attempts : list Z) (code : str) (rpt : report) : prog str :=
  match attempts with
  | attempt :: attempts =>
      _ <~ _log verbose
             (u " Retry " ++ str_of_Z attempt ++ u "/" ++ str_of_Z max_retries
              ++ u " " ++ EMDASH ++ u " sending errors to LLM for self-correction...") ;;
      code <~ call (call_regenerate_component code (errors rpt) description tokens model) ;;
      _ <~ _log verbose (u " Retry " ++ str_of_Z attempt ++ u " generation complete.") ;;
      _ <~ _log verbose (u " Re-validating after retry " ++ str_of_Z attempt ++ u "...") ;;
      rpt <~ lift (validate_component code tokens) ;;
      if is_valid rpt then
        _ <~ _log_warnings verbose (warnings rpt) ;;
        _ <~ _log verbose
               (u " Component passed all checks after retry " ++ str_of_Z attempt ++ u ".") ;;
        Return code
      else
        _ <~ _log verbose
               (u "  Still " ++ str_of_int (N.of_nat (length (errors rpt)))
                ++ u " error(s) after retry " ++ str_of_Z attempt ++ u ":") ;;
        _ <~ _log_errors verbose (errors rpt) ;;
        _ <~ (if nonempty (warnings rpt)
              then _log_warnings verbose (warnings rpt)
              else Return tt) ;;
        retry_loop attempts code rpt
  | [] =>
      (* Step 5: retries exhausted, return best-effort output *)
      _ <~ _log verbose
             (u " Max retries (" ++ str_of_Z max_retries
              ++ u ") exhausted. Returning best-effort output." ++ [LF]
              ++ u "   Unresolved errors: " ++ repr_list (errors rpt)) ;;
      Return code
  end.

End Body.

Definition run_agent_loop (description : str) (max_retries : Z) (model : str)
  (verbose : bool) : prog str :=
  tokens <~ call call_load_design_system ;;
  (* Step 1: initial generation *)
  _ <~ _log verbose (u " Generating initial component...") ;;
  code <~ call (call_generate_component description tokens model) ;;
  _ <~ _log verbose (u " Initial generation complete.") ;;
  (* Step 2: first validation pass *)
  _ <~ _log verbose (u " Running design-system validation...") ;;
  rpt <~ lift (validate_component code tokens) ;;
  if is_valid rpt then
    _ <~ _log_warnings verbose (warnings rpt) ;;
    _ <~ _log verbose (u " Component passed all validation checks on first attempt.") ;;
    Return code
  else
    (* Validation failed: log the errors *)
    _ <~ _log verbose
           (u "  Validation found " ++ str_of_int (N.of_nat (length (errors rpt)))
            ++ u " error(s) on first attempt:") ;;
    _ <~ _log_errors verbose (errors rpt) ;;
    _ <~ (if nonempty (warnings rpt)
          then _log_warnings verbose (warnings rpt)
          else Return tt) ;;
    (* Steps 3-4: self-correction retry loop *)
    retry_loop description max_retries model verbose tokens
      (range 1 (max_retries + 1)) code rpt.

End AgentLoop.

(** ** Running a program against the outside *)

(** A call seen from outside: which one, with which arguments. *)
Inductive event :=
| load_event
| generate_event (description : str) (tokens : gmap str str) (model : str)
| regenerate_event (original_code : str) (errors : list str)
    (description : str) (tokens : gmap str str) (model : str)
| stderr_event (message : str).

Definition event_of {X} (a : action X) : event :=
  match a with
  | call_load_design_system => load_event
  | call_generate_component d t m => generate_event d t m
  | call_regenerate_component c e d t m => regenerate_event c e d t m
  | call_print_stderr l => stderr_event l
  end.

Definition is_regenerate (e : event) : bool :=
  match e with regenerate_event _ _ _ _ _ => true | _ => false end.

Definition is_stderr (e : event) : bool :=
  match e with stderr_event _ => true | _ => false end.

(** How a run ends: the value returned, an exception of the validator,
    or the failure of a call. *)
Inductive outcome (failure A : Type) : Type :=
| Returned (a : A)
| Raised (e : exn)
| Failed (f : failure).
Arguments Returned {failure A} a.
Arguments Raised {failure A} e.
Arguments Failed {failure A} f.

Section Run.
Variables (world failure : Type).

(** The outside: what a call returns, or how it fails, in a given state
    of the world, and the state it leaves. *)
Variable outside : forall X, action X -> world -> (failure + X) * world.

(** The outcome of a program, the calls it made and the world it left. *)
Fixpoint run {A} (p : prog A) (w : world) : outcome failure A * list event * world :=
  match p with
  | Return a => (Returned a, [], w)
  | Throw e => (Raised e, [], w)
  | Do a k =>
      match outside _ a w with
      | (inr x, w') =>
          let '(o, tr, w'') := run (k x) w' in (o, event_of a :: tr, w'')
      | (inl f, w') => (Failed f, [event_of a], w')
      end
  end.

End Run.

Arguments run {world failure} outside {A} p w.

(** An outside to run the examples in: the design system is
    [demo_tokens], the model answers with the next text of a script, and
    fails when the script is over, and printing succeeds. *)
Definition scripted (X : Type) (a : action X) (w : list str) : (unit + X) * list str :=
  match a in action X return (unit + X) * list str with
  | call_load_design_system => (inr demo_tokens, w)
  | call_generate_component _ _ _
  | call_regenerate_component _ _ _ _ _ =>
      match w with
      | answer :: w => (inr answer, w)
      | [] => (inl tt, w)
      end
  | call_print_stderr _ => (inr tt, w)
  end.

(** The calls other than the prints. *)
Definition calls (tr : list event) : list event :=
  filter (fun e => is_stderr e = false) tr.

(** The number of corrections asked of the model. *)
Definition regenerations (tr : list event) : nat :=
  length (filter (fun e => is_regenerate e = true) tr).

(** A correction asked for [description] and [model] under [tokens], of a
    code that the validator rejected, with the errors it reported. *)
Definition corrects_rejected `{PyUnicode} (description : str) (model : str)
  (tokens : gmap str str) (e : event) : Prop :=
  match e with
  | regenerate_event original_code errs description' tokens' model' =>
      description' = description /\ tokens' = tokens /\ model' = model
      /\ exists r, validate_component original_code tokens = Ok r
                   /\ is_valid r = false /\ errs = errors r
  | _ => False
  end.

(** ** The vocabulary of the properties of the loop *)

Section RunVocabulary.
Context `{PyUnicode}.
Variables (world failure : Type).
Variable outside : forall X, action X -> world -> (failure + X) * world.

(** Every run of [p] ends in [o] after the calls [tr], with [Q tr o]. *)
Definition sat {A} (p : prog A) (Q : list event -> outcome failure A -> Prop) : Prop :=
  forall w, Q (run outside p w).1.2 (run outside p w).1.1.

(** What a logging helper does: prints, and nothing raised by the
    validator. *)
Definition log_only (tr : list event) (o : outcome failure unit) : Prop :=
  Forall (fun e => is_stderr e = true) tr /\ forall e, o <> Raised e.

(** [P] holds of the calls other than prints, and of the outcome. *)
Definition sat_calls {A} (p : prog A) (P : list event -> outcome failure A -> Prop) : Prop :=
  sat p (fun tr o => P (calls tr) o).

(** What holds of the calls of the retry loop started with [n] attempts
    left: they are corrections of rejected code, at most [n] of them, and
    a code is returned only after the validator accepted it or once the
    [n] corrections are spent. *)
Definition loop_post (description : str) (model : str) (tokens : gmap str str)
  (n : nat) (c : list event) (o : outcome failure str) : Prop :=
  Forall (corrects_rejected description model tokens) c
  /\ (length c <= n)%nat
  /\ forall code, o = Returned code ->
       exists r, validate_component code tokens = Ok r
                 /\ (is_valid r = true \/ length c = n).

(** What holds of the calls of a whole run under the design system
    [tokens]: the generation, then what [loop_post] says. *)
Definition generation_post (description : str) (max_retries : Z) (model : str)
  (tokens : gmap str str) (c : list event) (o : outcome failure str) : Prop :=
  (c = [] /\ exists f, o = Failed f)
  \/ exists regs,
       c = generate_event description tokens model :: regs
       /\ loop_post description model tokens (Z.to_nat max_retries) regs o.

(** No call is a print. *)
Definition no_print (tr : list event) (o : outcome failure str) : Prop :=
  Forall (fun e => is_stderr e = false) tr.

(** What is seen of a run when the prints are left out. *)
Definition observed {A} (r : outcome failure A * list event * world) :
  outcome failure A * list event * world :=
  (r.1.1, calls r.1.2, r.2).

(** A program that prints and does nothing else. *)
Definition silent (p : prog unit) : Prop :=
  forall w, exists tr,
    run outside p w = (Returned tt, tr, w) /\ Forall (fun e => is_stderr e = true) tr.

End RunVocabulary.
Arguments sat {world failure} outside {A} p Q.
Arguments sat_calls {world failure} outside {A} p P.
Arguments log_only {failure} tr o.
Arguments loop_post {H failure} description model tokens n c o.
Arguments generation_post {H failure} description max_retries model tokens c o.
Arguments no_print {failure} tr o.
Arguments observed {world failure A} r.
Arguments silent {world failure} outside p.

(** * Properties *)

(** ** The scanner *)

Lemma bind_ok {A B} (r : result A) (f : A -> result B) (b : B) :
  bind r f = Ok b -> exists a, r = Ok a /\ f a = Ok b.
Proof. destruct r as [a|e]; simpl; [eauto | discriminate]. Qed.

(** Whatever holds of the continuation on every input no longer than [t]
    holds of the loop started on [t]. *)
Lemma in_string_ind {A} (P : A -> Prop) (k : str -> N -> A) (quote : char) :
  forall (n : nat) (t : str) (l : N),
    (length t <= n)%nat ->
    (forall t' l', (length t' <= length t)%nat -> P (k t' l')) ->
    P (in_string k quote t l).
Proof.
  induction n as [|n IH]; intros t l Hn Hk.
  - destruct t; [apply Hk; lia | simpl in Hn; lia].
  - destruct t as [|c t1]; [apply Hk; lia|].
    simpl. destruct t1 as [|d t2].
    + destruct (c =? quote); [apply Hk; simpl; lia|].
      simpl. apply Hk; simpl; lia.
    + simpl in Hn.
      destruct (c =? BACKSLASH).
      * apply IH; [simpl; lia|]. intros; apply Hk; simpl in *; lia.
      * destruct (c =? quote); [apply Hk; simpl; lia|].
        apply IH; [simpl; lia|]. intros; apply Hk; simpl in *; lia.
Qed.

Lemma in_line_comment_ind {A} (P : A -> Prop) (k : str -> A) :
  forall (t : str),
    (forall t', (length t' <= length t)%nat -> P (k t')) ->
    P (in_line_comment k t).
Proof.
  induction t as [|c t1 IH]; intros Hk; [apply Hk; lia|].
  simpl. destruct (c =? LF); [apply Hk; lia|].
  apply IH. intros; apply Hk; simpl; lia.
Qed.

Lemma in_block_comment_ind {A} (P : A -> Prop) (k : str -> N -> A) :
  forall (t : str) (l : N),
    (forall t' l', (length t' <= length t)%nat -> P (k t' l')) ->
    P (in_block_comment k t l).
Proof.
  induction t as [|c t1 IH]; intros l Hk; [apply Hk; lia|].
  simpl. destruct t1 as [|d t2]; [apply Hk; lia|].
  destruct ((c =? STAR) && (d =? SLASH)); [apply Hk; simpl; lia|].
  apply IH. intros; apply Hk; simpl in *; lia.
Qed.

(** An invariant of the scanner state that the line counter does not
    touch and that every bracket step keeps is kept by the whole pass, and
    the pass returns. *)
Lemma scan_invariant (I : scan_state -> Prop) :
  (forall st l, I st -> I (set_line st l)) ->
  (forall ch st, I st -> exists st', bracket_step ch st = Ok st' /\ I st') ->
  forall s st, I st -> exists st', scan s st = Ok st' /\ I st'.
Proof.
  intros Hline Hstep s.
  remember (length s) as n eqn:Hn.
  revert s Hn. induction n as [n IH] using lt_wf_ind. intros s Hn st HI.
  destruct s as [|ch rest]; [simpl; eauto|].
  assert (Hrec : forall t st', (length t <= length rest)%nat -> I st' ->
                               exists st'', scan t st' = Ok st'' /\ I st'').
  { intros t st' Ht HI'. apply (IH (length t)); [simpl in Hn; lia | reflexivity | exact HI']. }
  assert (Hbr : exists st'', (st' <- bracket_step ch st ;; scan rest st') = Ok st'' /\ I st'').
  { destruct (Hstep ch st HI) as (st1 & -> & HI1). simpl. apply Hrec; [lia | exact HI1]. }
  simpl. destruct (ch =? LF); [apply Hrec; [lia | auto]|].
  destruct (is_quote ch).
  { apply in_string_ind with (n := length rest); [lia|].
    intros t' l' Ht'. apply Hrec; [lia | auto]. }
  destruct rest as [|d rest2]; [exact Hbr|].
  destruct ((ch =? SLASH) && (d =? SLASH)).
  { apply in_line_comment_ind. intros t' Ht'. apply Hrec; [lia | auto]. }
  destruct ((ch =? SLASH) && (d =? STAR)); [|exact Hbr].
  apply in_block_comment_ind. intros t' l' Ht'. apply Hrec; [simpl in *; lia | auto].
Qed.

Lemma opener_cases (c : char) :
  is_Some (dict_get openers c) -> c = c_of "(" \/ c = c_of "{" \/ c = c_of "[".
Proof.
  unfold openers, dict_get.
  destruct (N.eqb_spec (c_of "(") c); [auto|].
  destruct (N.eqb_spec (c_of "{") c); [auto|].
  destruct (N.eqb_spec (c_of "[") c); [auto|].
  intros [? ?]; discriminate.
Qed.

Lemma closer_cases (c e : char) :
  dict_get closers c = Some e ->
  (c = c_of ")" /\ e = c_of "(") \/ (c = c_of "}" /\ e = c_of "{")
  \/ (c = c_of "]" /\ e = c_of "[").
Proof.
  unfold closers, dict_get.
  destruct (N.eqb_spec (c_of ")") c); [intros [= <-]; auto|].
  destruct (N.eqb_spec (c_of "}") c); [intros [= <-]; auto|].
  destruct (N.eqb_spec (c_of "]") c); [intros [= <-]; auto|].
  discriminate.
Qed.

Lemma opener_named (c : char) :
  is_Some (dict_get openers c) ->
  exists name closer,
    getitem bracket_names c = Ok name /\ getitem openers c = Ok closer
    /\ dict_get closers closer = Some c.
Proof.
  intros H. destruct (opener_cases c H) as [-> | [-> | ->]];
    do 2 eexists; repeat split; reflexivity.
Qed.

Lemma closer_named (c e : char) :
  dict_get closers c = Some e -> exists name, getitem bracket_names c = Ok name.
Proof.
  intros H. destruct (closer_cases c e H) as [[-> _] | [[-> _] | [-> _]]];
    eexists; reflexivity.
Qed.

Lemma stack_ok_removelast (l : list (char * N)) :
  Forall (fun e => is_Some (dict_get openers e.1)) l ->
  Forall (fun e => is_Some (dict_get openers e.1)) (removelast l).
Proof.
  intros H. destruct (decide (l = [])) as [-> | Hne]; [exact H|].
  destruct (exists_last Hne) as (l' & a & ->).
  rewrite removelast_last. apply Forall_app in H. tauto.
Qed.

(** What one bracket step does to the state: it pushes, pops, or reports
    one SYNTAX_ERROR message (and then possibly pops). *)
Lemma bracket_step_ok (ch : char) (st : scan_state) :
  stack_ok st ->
  exists st', bracket_step ch st = Ok st' /\ stack_ok st' /\ line st' = line st
    /\ (syntax_errors st' = syntax_errors st
        \/ exists m, syntax_errors st' = syntax_errors st ++ [m]
                     /\ startswith m (u "SYNTAX_ERROR:") = true).
Proof.
  intros Hst. unfold bracket_step.
  destruct (dict_get openers ch) as [c|] eqn:Hop.
  { eexists; split; [reflexivity|]. repeat split; [|auto].
    unfold stack_ok; simpl. apply Forall_app; split; [exact Hst|].
    constructor; [change (is_Some (dict_get openers ch)); rewrite Hop; eauto | constructor]. }
  destruct (dict_get closers ch) as [expected|] eqn:Hcl; [|eauto 10].
  destruct (closer_named _ _ Hcl) as [cname Hcname].
  destruct (last (stack st)) as [[opener_char opener_line]|] eqn:Hlast.
  - apply last_Some in Hlast as [stk Hstk].
    assert (Hpop : Forall (fun e => is_Some (dict_get openers e.1)) (removelast (stack st)))
      by (apply stack_ok_removelast, Hst).
    destruct (negb (opener_char =? expected)); [|eauto 10].
    assert (Hopn : is_Some (dict_get openers opener_char)).
    { red in Hst. rewrite Hstk in Hst. apply Forall_app in Hst as [_ Hst].
      inversion Hst; subst; assumption. }
    destruct (opener_named _ Hopn) as (oname & closer & Honame & _).
    rewrite Hcname, Honame. simpl.
    eexists; split; [reflexivity|]. repeat split; [exact Hpop|].
    right. eexists; split; reflexivity.
  - rewrite Hcname. simpl. eexists; split; [reflexivity|]. repeat split; [exact Hst|].
    right. eexists; split; reflexivity.
Qed.

(** The single pass returns, with a stack of opening brackets and only
    SYNTAX_ERROR messages. *)
Lemma scan_ok (s : str) :
  exists st, scan s scan_init = Ok st /\ stack_ok st
             /\ Forall (fun m => startswith m (u "SYNTAX_ERROR:") = true) (syntax_errors st).
Proof.
  pose (I := fun st => stack_ok st
               /\ Forall (fun m => startswith m (u "SYNTAX_ERROR:") = true) (syntax_errors st)).
  destruct (scan_invariant I) with (s := s) (st := scan_init) as (st & Hscan & HI).
  - intros st l [H1 H2]; split; assumption.
  - intros ch st [H1 H2].
    destruct (bracket_step_ok ch st H1) as (st' & Hstep & Hok & _ & Herr).
    exists st'. split; [exact Hstep|]. split; [exact Hok|].
    destruct Herr as [-> | (m & -> & Hm)]; [exact H2|].
    apply Forall_app; split; [exact H2 | repeat constructor; exact Hm].
  - split; constructor.
  - exists st. destruct HI; auto.
Qed.

Lemma getitem_ok {V} (d : list (char * V)) (k : char) (v : V) :
  getitem d k = Ok v -> dict_get d k = Some v.
Proof. unfold getitem. destruct (dict_get d k); congruence. Qed.

Lemma unclosed_cons (c : char) (l : N) (stk : list (char * N)) (errs : list str) :
  unclosed ((c, l) :: stk) errs
  = (name <- getitem bracket_names c ;;
     closer <- getitem openers c ;;
     unclosed stk (errs ++ [unclosed_msg name l closer])).
Proof. reflexivity. Qed.

Lemma unclosed_spec (stk : list (char * N)) :
  Forall (fun e => is_Some (dict_get openers e.1)) stk ->
  forall errs, exists msgs,
    unclosed stk errs = Ok (errs ++ msgs)
    /\ Forall2 (fun e m => exists name closer,
                  dict_get bracket_names e.1 = Some name
                  /\ dict_get openers e.1 = Some closer
                  /\ m = unclosed_msg name e.2 closer) stk msgs.
Proof.
  induction 1 as [|[c l] stk Hc Hstk IH]; intros errs.
  - exists []. split; [simpl; by rewrite app_nil_r | constructor].
  - destruct (opener_named c Hc) as (name & closer & Hname & Hcloser & _).
    destruct (IH (errs ++ [unclosed_msg name l closer])) as (msgs & E & F).
    exists (unclosed_msg name l closer :: msgs). split.
    + rewrite unclosed_cons, Hname, Hcloser. simpl bind.
      rewrite E, <- app_assoc. reflexivity.
    + constructor; [|exact F]. exists name, closer.
      repeat split; apply getitem_ok; assumption.
Qed.

(** A closing bracket is handled by the bracket step. *)
Lemma scan_closer (ch e : char) (rest : str) (st : scan_state) :
  dict_get closers ch = Some e ->
  scan (ch :: rest) st = (st' <- bracket_step ch st ;; scan rest st').
Proof.
  intros He.
  destruct (closer_cases _ _ He) as [[-> _] | [[-> _] | [-> _]]];
    destruct rest; reflexivity.
Qed.

(** X22. In CODE state, a closing bracket read while the top of the stack
    holds another kind of opener adds exactly one "Mismatched brackets"
    SYNTAX_ERROR, which cites the value of the line counter at the closer
    and the value recorded with the opener, and pops that top entry; the
    scan then goes on with the next character.  For the source "( ]" the
    scanner returns exactly this one error, with both lines equal to 1. *)
Theorem mismatch_reports_once_and_pops :
  (forall (ch expected opener_char : char) (opener_line : N)
          (stk : list (char * N)) (st : scan_state) (rest : str),
     stack_ok st ->
     dict_get closers ch = Some expected ->
     stack st = stk ++ [(opener_char, opener_line)] ->
     opener_char <> expected ->
     exists closer_name opener_name st',
       dict_get bracket_names ch = Some closer_name
       /\ dict_get bracket_names opener_char = Some opener_name
       /\ st' = {| stack := stk; line := line st;
                   syntax_errors := syntax_errors st
                     ++ [mismatch_msg closer_name (line st) opener_name opener_line] |}
       /\ bracket_step ch st = Ok st'
       /\ scan (ch :: rest) st = scan rest st')
  /\ validate_syntax (u "( ]")
     = Ok [mismatch_msg (u "closing bracket ']'") 1 (u "opening parenthesis '('") 1].
Proof.
  split; [|vm_compute; reflexivity].
  intros ch expected opener_char opener_line stk st rest Hok Hcl Hstk Hne.
  assert (Hopn : is_Some (dict_get openers opener_char)).
  { red in Hok. rewrite Hstk in Hok. apply Forall_app in Hok as [_ Hok].
    inversion Hok; subst; assumption. }
  assert (Hstep : forall cn on,
             dict_get bracket_names ch = Some cn ->
             dict_get bracket_names opener_char = Some on ->
             dict_get openers ch = None ->
             bracket_step ch st
             = Ok {| stack := stk; line := line st;
                     syntax_errors := syntax_errors st
                       ++ [mismatch_msg cn (line st) on opener_line] |}).
  { intros cn on Hcn Hon Hnop. unfold bracket_step, getitem.
    rewrite Hnop, Hcl, Hstk, last_snoc.
    destruct (N.eqb_spec opener_char expected) as [|_]; [contradiction|].
    rewrite Hcn, Hon. cbn [negb bind]. unfold pop, report_error; simpl.
    rewrite Hstk, removelast_last. reflexivity. }
  destruct (opener_cases _ Hopn) as [-> | [-> | ->]];
    destruct (closer_cases _ _ Hcl) as [[-> ->] | [[-> ->] | [-> ->]]];
    try contradiction;
    do 3 eexists;
    (split; [reflexivity|]); (split; [reflexivity|]); (split; [reflexivity|]);
    (split; [apply Hstep; reflexivity|]);
    (erewrite scan_closer by reflexivity);
    (erewrite Hstep; [reflexivity | reflexivity..]).
Qed.

(** A bracket on line 3 closing a parenthesis opened on line 2, inside a
    brace opened on line 1. *)
Lemma mismatch_reports_once_and_pops_witness :
  exists st',
    st' = {| stack := [(c_of "{", 1)]; line := 3;
             syntax_errors := [mismatch_msg (u "closing bracket ']'") 3
                                 (u "opening parenthesis '('") 2] |}
    /\ bracket_step (c_of "]")
         {| stack := [(c_of "{", 1); (c_of "(", 2)]; line := 3; syntax_errors := [] |}
       = Ok st'.
Proof.
  destruct (proj1 mismatch_reports_once_and_pops
              (c_of "]") (c_of "[") (c_of "(") 2 [(c_of "{", 1)]
              {| stack := [(c_of "{", 1); (c_of "(", 2)]; line := 3; syntax_errors := [] |} [])
    as (cn & on & st' & Hcn & Hon & Hst' & Hstep & _).
  - repeat constructor; simpl; eauto.
  - reflexivity.
  - reflexivity.
  - discriminate.
  - exists st'. split; [|exact Hstep].
    injection Hcn as <-. injection Hon as <-. exact Hst'.
Defined.

(** X23. After the single pass the scanner returns the errors of the pass
    followed by exactly one "Unclosed" SYNTAX_ERROR per entry left on the
    stack, each naming that entry's opener and the line recorded with it, in
    the order of the stack from bottom (oldest) to top (newest).  For
    "{ { }" that is one error, for the first brace; with a line break
    between the two braces it still cites line 1, the line of the outer
    brace; and a parenthesis on line 1 and a brace on line 2, both left
    open, are reported in that order. *)
Theorem unclosed_openers_reported_in_stack_order :
  (forall code : str,
     exists (st : scan_state) (msgs : list str),
       scan code scan_init = Ok st
       /\ validate_syntax code = Ok (syntax_errors st ++ msgs)
       /\ Forall2 (fun e m => exists name closer,
                     dict_get bracket_names e.1 = Some name
                     /\ dict_get openers e.1 = Some closer
                     /\ m = unclosed_msg name e.2 closer) (stack st) msgs)
  /\ validate_syntax (u "{ { }")
     = Ok [unclosed_msg (u "opening brace '{'") 1 (c_of "}")]
  /\ validate_syntax (u "{" ++ [LF] ++ u "{ }")
     = Ok [unclosed_msg (u "opening brace '{'") 1 (c_of "}")]
  /\ validate_syntax (u "(" ++ [LF] ++ u "{")
     = Ok [unclosed_msg (u "opening parenthesis '('") 1 (c_of ")");
           unclosed_msg (u "opening brace '{'") 2 (c_of "}")].
Proof.
  split; [|repeat split; vm_compute; reflexivity].
  intros code. destruct (scan_ok code) as (st & Hscan & Hok & _).
  destruct (unclosed_spec (stack st) Hok (syntax_errors st)) as (msgs & Hun & HF).
  exists st, msgs. split; [exact Hscan|]. split; [|exact HF].
  unfold validate_syntax. rewrite Hscan. exact Hun.
Qed.

(** C4, evaluated.  In the source made of a quoted backslash-newline
    followed by a closing parenthesis, the parenthesis (index 4) stands on
    line 2, and the scanner reports it on line 1: the newline skipped as an
    escaped character is not counted. *)
Theorem escaped_newline_is_not_counted :
  let code := u "'\" ++ [LF] ++ u "')" in
  code !! 4%nat = Some (c_of ")")
  /\ line_of code 4 = 2
  /\ validate_syntax code
     = Ok [unexpected_msg (u "closing parenthesis ')'") 1 (c_of ")")].
Proof. vm_compute. repeat split; reflexivity. Qed.

(** C2, evaluated.  In the source made of a quoted backslash-newline
    followed by "( ]", the parenthesis (index 4) and the bracket (index 6)
    both stand on line 2.  The scanner returns exactly one "Mismatched
    brackets" SYNTAX_ERROR, and it cites line 1 for the closer and line 1
    for the opener: the escaped newline of the string was not counted, so
    the line cited for the closer is not the closer's line. *)
Theorem mismatch_after_escaped_newline_cites_line_1 :
  let code := u "'\" ++ [LF] ++ u "'( ]" in
  code !! 4%nat = Some (c_of "(")
  /\ code !! 6%nat = Some (c_of "]")
  /\ line_of code 4 = 2
  /\ line_of code 6 = 2
  /\ validate_syntax code
     = Ok [mismatch_msg (u "closing bracket ']'") 1 (u "opening parenthesis '('") 1].
Proof. vm_compute. repeat split; reflexivity. Qed.

(** C3, evaluated.  In the source made of a quoted backslash-newline
    followed by a parenthesis, a newline and a brace, the parenthesis
    (index 4) is opened on line 2 and the brace (index 6) on line 3.  The
    scanner returns one "Unclosed" SYNTAX_ERROR for each, the older first,
    and cites line 1 for the parenthesis and line 2 for the brace: neither
    is the line the opener was opened on. *)
Theorem unclosed_after_escaped_newline_cites_earlier_lines :
  let code := u "'\" ++ [LF] ++ u "'(" ++ [LF] ++ u "{" in
  code !! 4%nat = Some (c_of "(")
  /\ code !! 6%nat = Some (c_of "{")
  /\ line_of code 4 = 2
  /\ line_of code 6 = 3
  /\ validate_syntax code
     = Ok [unclosed_msg (u "opening parenthesis '('") 1 (c_of ")");
           unclosed_msg (u "opening brace '{'") 2 (c_of "}")].
Proof. vm_compute. repeat split; reflexivity. Qed.

(** *** The line counter

    The escaped character of a string literal is the only place where the
    scanner passes a newline without counting it: on a source without
    backslashes the counter ends at the number of lines. *)

Lemma newlines_cons (c : char) (s : str) :
  newlines (c :: s) = (if c =? LF then 1 else 0) + newlines s.
Proof.
  unfold newlines. destruct (N.eqb_spec c LF) as [-> | Hne].
  - rewrite filter_cons_True by reflexivity. simpl length. lia.
  - rewrite filter_cons_False by assumption. lia.
Qed.

Lemma newlines_app (s t : str) : newlines (s ++ t) = newlines s + newlines t.
Proof. unfold newlines. rewrite filter_app, length_app. lia. Qed.

Lemma in_string_counts {A} (P : A -> Prop) (k : str -> N -> A) (quote : char) :
  forall (t : str) (l : N),
    BACKSLASH ∉ t ->
    (forall consumed t', t = consumed ++ t' -> P (k t' (l + newlines consumed))) ->
    P (in_string k quote t l).
Proof.
  induction t as [|c t1 IH]; intros l Hb Hk.
  - specialize (Hk [] []). rewrite N.add_0_r in Hk. by apply Hk.
  - apply not_elem_of_cons in Hb as [Hc Hb].
    assert (Hquote : P (k t1 (if c =? LF then l + 1 else l))).
    { specialize (Hk [c] t1 eq_refl). rewrite newlines_cons in Hk.
      destruct (c =? LF); [exact Hk|]. by rewrite !N.add_0_r in Hk. }
    assert (Hloop : P (in_string k quote t1 (if c =? LF then l + 1 else l))).
    { apply IH; [exact Hb|]. intros consumed t' ->.
      specialize (Hk (c :: consumed) t' eq_refl). rewrite newlines_cons in Hk.
      destruct (c =? LF); [by rewrite N.add_assoc in Hk|].
      by rewrite N.add_0_l in Hk. }
    simpl. destruct (N.eqb_spec c BACKSLASH) as [-> | _]; [done|].
    destruct t1; destruct (c =? quote); assumption.
Qed.

Lemma in_line_comment_counts {A} (P : A -> Prop) (k : str -> A) :
  forall (t : str),
    (forall consumed t', t = consumed ++ t' -> newlines consumed = 0 -> P (k t')) ->
    P (in_line_comment k t).
Proof.
  induction t as [|c t1 IH]; intros Hk; [by apply (Hk [] [])|].
  simpl. destruct (N.eqb_spec c LF) as [-> | Hne]; [by apply (Hk [] (LF :: t1))|].
  apply IH. intros consumed t' -> Hn. apply (Hk (c :: consumed) t' eq_refl).
  rewrite newlines_cons, Hn. by destruct (N.eqb_spec c LF).
Qed.

Lemma in_block_comment_counts {A} (P : A -> Prop) (k : str -> N -> A) :
  forall (t : str) (l : N),
    (forall consumed t', t = consumed ++ t' -> P (k t' (l + newlines consumed))) ->
    P (in_block_comment k t l).
Proof.
  induction t as [|c t1 IH]; intros l Hk.
  - specialize (Hk [] []). rewrite N.add_0_r in Hk. by apply Hk.
  - simpl. destruct t1 as [|d t2].
    { specialize (Hk [] [c]). rewrite N.add_0_r in Hk. by apply Hk. }
    destruct ((c =? STAR) && (d =? SLASH)) eqn:E.
    + apply andb_true_iff in E as [Ec Ed].
      apply N.eqb_eq in Ec as ->. apply N.eqb_eq in Ed as ->.
      specialize (Hk [STAR; SLASH] t2 eq_refl).
      change (newlines [STAR; SLASH]) with 0 in Hk. rewrite N.add_0_r in Hk. exact Hk.
    + apply IH. intros consumed t' Ht.
      specialize (Hk (c :: consumed) t'). rewrite Ht in Hk.
      specialize (Hk eq_refl). rewrite newlines_cons in Hk.
      destruct (c =? LF); [by rewrite N.add_assoc in Hk|].
      by rewrite N.add_0_l in Hk.
Qed.

Lemma scan_counts_newlines (s : str) :
  forall st,
    BACKSLASH ∉ s -> stack_ok st ->
    exists st', scan s st = Ok st' /\ stack_ok st' /\ line st' = line st + newlines s.
Proof.
  remember (length s) as n eqn:Hn.
  revert s Hn. induction n as [n IH] using lt_wf_ind. intros s Hn st Hb Hok.
  destruct s as [|ch rest].
  { exists st. simpl. repeat split; [exact Hok | unfold newlines; simpl; lia]. }
  apply not_elem_of_cons in Hb as [Hch Hb].
  assert (Hrec : forall consumed t st',
             rest = consumed ++ t -> stack_ok st' ->
             exists st'', scan t st' = Ok st'' /\ stack_ok st''
                          /\ line st'' = line st' + newlines t).
  { intros consumed t st' Ht Hok'. apply (IH (length t)); [|reflexivity| |exact Hok'].
    - rewrite Hn, Ht. simpl. rewrite length_app. lia.
    - rewrite Ht in Hb. apply not_elem_of_app in Hb. tauto. }
  rewrite newlines_cons.
  assert (Hbr : ch <> LF ->
                exists st', (st1 <- bracket_step ch st ;; scan rest st1) = Ok st'
                            /\ stack_ok st' /\ line st' = line st + (0 + newlines rest)).
  { intros _. destruct (bracket_step_ok ch st Hok) as (st1 & -> & Hok1 & Hl1 & _). simpl bind.
    destruct (Hrec [] rest st1 eq_refl Hok1) as (st' & Hs & Hok' & Hl).
    exists st'. repeat split; [exact Hs | exact Hok' | lia]. }
  simpl. destruct (N.eqb_spec ch LF) as [-> | Hne].
  { destruct (Hrec [] rest (set_line st (line st + 1)) eq_refl Hok) as (st' & Hs & Hok' & Hl).
    exists st'. repeat split; [exact Hs | exact Hok' | simpl in Hl; lia]. }
  destruct (is_quote ch).
  { apply in_string_counts; [exact Hb|]. intros consumed t' Ht.
    destruct (Hrec consumed t' (set_line st (line st + newlines consumed)) Ht Hok)
      as (st' & Hs & Hok' & Hl).
    exists st'. repeat split; [exact Hs | exact Hok'|].
    simpl in Hl. rewrite Ht, newlines_app. lia. }
  destruct rest as [|d rest2]; [by apply Hbr|].
  destruct ((ch =? SLASH) && (d =? SLASH)).
  { apply in_line_comment_counts. intros consumed t' Ht Hz.
    destruct (Hrec consumed t' st Ht Hok) as (st' & Hs & Hok' & Hl).
    exists st'. repeat split; [exact Hs | exact Hok'|].
    rewrite Ht, newlines_app. lia. }
  destruct ((ch =? SLASH) && (d =? STAR)) eqn:E; [|by apply Hbr].
  apply andb_true_iff in E as [_ Ed]. apply N.eqb_eq in Ed as ->.
  apply in_block_comment_counts. intros consumed t' Ht.
  destruct (Hrec (STAR :: consumed) t' (set_line st (line st + newlines consumed)))
    as (st' & Hs & Hok' & Hl); [by rewrite Ht | exact Hok |].
  exists st'. repeat split; [exact Hs | exact Hok'|].
  simpl in Hl. rewrite newlines_cons, Ht, newlines_app. simpl. lia.
Qed.

(** On a source without backslashes the line counter ends at one plus the
    number of newlines of the source, wherever they stand: in code, in
    strings or in comments. *)
Lemma line_counter_without_escapes (code : str) :
  BACKSLASH ∉ code ->
  exists st, scan code scan_init = Ok st /\ line st = line_of code (length code).
Proof.
  intros Hb. destruct (scan_counts_newlines code scan_init Hb) as (st & Hs & _ & Hl).
  { constructor. }
  exists st. split; [exact Hs|]. unfold line_of. by rewrite firstn_all, Hl.
Qed.

(** ** The matcher *)

Section RegexFacts.
Context `{PyUnicode}.

(** A successful run ends in the continuation. *)
Lemma exec_result {A} (ic : bool) (r : regex) :
  forall (p : cursor) (k : cursor -> option A) (a : A),
    exec ic r p k = Some a -> exists q, k q = Some a.
Proof.
  induction r as [| c | neg rs | | | | r1 IH1 r2 IH2 | r1 IH1 r2 IH2 | r1 IH1 | r1 IH1];
    intros p k a; simpl.
  - eauto.
  - destruct (rest p); [discriminate|]. destruct (if ic then _ else _); [eauto | discriminate].
  - destruct (rest p); [discriminate|]. destruct (xorb _ _); [eauto | discriminate].
  - destruct (rest p); [discriminate|]. destruct (is_word _); [eauto | discriminate].
  - destruct (rest p); [discriminate|]. destruct (is_space _); [eauto | discriminate].
  - destruct (xorb _ _); [eauto | discriminate].
  - intros Hx. apply IH1 in Hx as [q Hq]. eapply IH2, Hq.
  - destruct (exec ic r1 p k) eqn:E1; [intros [= <-]; eapply IH1, E1 | apply IH2].
  - generalize (length (rest p)). intros fuel. revert p.
    induction fuel as [|fuel IHf]; intros p; simpl; [eauto|].
    match goal with |- context [exec ic r1 p ?k'] => destruct (exec ic r1 p k') eqn:E1 end;
      [|eauto].
    intros [= <-]. apply IH1 in E1 as [q Hq].
    destruct (_ <? _)%nat; [eapply IHf, Hq | discriminate].
  - intros Hx. apply IH1 in Hx as [q Hq]. eauto.
Qed.

(** The matcher only looks at the values of the continuation. *)
Lemma exec_ext {A} (ic : bool) (r : regex) :
  forall (p : cursor) (k k' : cursor -> option A),
    (forall q, k q = k' q) -> exec ic r p k = exec ic r p k'.
Proof.
  induction r as [| c | neg rs | | | | r1 IH1 r2 IH2 | r1 IH1 r2 IH2 | r1 IH1 | r1 IH1];
    intros p k k' Hk; simpl;
    try (destruct (rest p); [reflexivity|];
         match goal with |- context [if ?b then _ else _] => destruct b end;
         [apply Hk | reflexivity]).
  - apply Hk.
  - destruct (xorb _ _); [apply Hk | reflexivity].
  - apply IH1. intros q. by apply IH2.
  - rewrite (IH1 p k k' Hk), (IH2 p k k' Hk). reflexivity.
  - generalize (length (rest p)). intros fuel. revert p.
    induction fuel as [|fuel IHf]; intros p; simpl; [apply Hk|].
    rewrite Hk. erewrite IH1; [reflexivity|].
    intros q. simpl. by rewrite IHf.
  - apply IH1. intros q. apply Hk.
Qed.

(** The fuel of a star is enough: more of it changes nothing. *)
Lemma star_loop_fuel {A} (ic : bool) (r : regex) (k : cursor -> option A) :
  forall (n m : nat) (p : cursor),
    (length (rest p) <= n)%nat -> (length (rest p) <= m)%nat ->
    star_loop (exec ic r) k n p = star_loop (exec ic r) k m p.
Proof.
  assert (Hnil : forall n p, rest p = [] -> star_loop (exec ic r) k n p = k p).
  { intros [|n] p Hp; simpl; [reflexivity|].
    match goal with |- context [exec ic r p ?k'] => destruct (exec ic r p k') eqn:E end;
      [|reflexivity].
    apply exec_result in E as [q Hq]. rewrite Hp in Hq. simpl in Hq.
    destruct (length (rest q)); discriminate. }
  induction n as [|n IH]; intros m p Hn Hm.
  - assert (Hp : rest p = []) by (destruct (rest p); [reflexivity | simpl in Hn; lia]).
    by rewrite !Hnil.
  - destruct m as [|m].
    + assert (Hp : rest p = []) by (destruct (rest p); [reflexivity | simpl in Hm; lia]).
      by rewrite !Hnil.
    + simpl. erewrite exec_ext; [reflexivity|].
      intros q. simpl. destruct (Nat.ltb_spec (length (rest q)) (length (rest p))); [|reflexivity].
      apply IH; lia.
Qed.

(** A match of a pattern that ends in a group followed by [\b] has a
    [group(1)]. *)
Lemma group_then_bound (ic : bool) (r0 r1 x : regex) (before : option char) (s : str)
  (m : re_match) :
  match_here ic (seq [r0; r1; Group x; Bound]) before s = Some m ->
  is_Some (group1 m).
Proof.
  unfold match_here. simpl. intros Hx.
  apply exec_result in Hx as [q0 Hx].
  apply exec_result in Hx as [q1 Hx].
  apply exec_result in Hx as [q2 Hx].
  destruct (xorb _ _); [|discriminate].
  injection Hx as <-. simpl. eauto.
Qed.

Lemma finditer_from_sound (ic : bool) (r : regex) (m : re_match) :
  forall (s : str) (skip : nat) (before : option char),
    m ∈ finditer_from ic r skip before s ->
    exists b t, match_here ic r b t = Some m.
Proof.
  induction s as [|c s IH]; intros skip before; simpl.
  - destruct skip; [|intros Hm; inversion Hm].
    destruct (match_here ic r before []) eqn:E; [|intros Hm; inversion Hm].
    intros Hm. apply list_elem_of_singleton in Hm as ->. eauto.
  - destruct skip; [|apply IH].
    destruct (match_here ic r before (c :: s)) eqn:E; [|apply IH].
    intros Hm. apply elem_of_cons in Hm as [-> | Hm]; [eauto | eapply IH, Hm].
Qed.

(** *** What the hex pattern matches *)

Lemma hex_digit_class (c : char) : step false hex_digit c = is_hex_digit c.
Proof.
  unfold step, hex_digit, in_ranges, is_hex_digit, is_lower_hex_digit, is_ascii_digit.
  simpl. by rewrite orb_false_r, orb_assoc.
Qed.

Lemma exec_hex_digit {A} (p : cursor) (k : cursor -> option A) (a : A) :
  exec false hex_digit p k = Some a ->
  exists c t, rest p = c :: t /\ is_hex_digit c = true /\ k (advance p c t) = Some a.
Proof.
  change (exec false hex_digit p k)
    with (match rest p with
          | c :: t => if step false hex_digit c then k (advance p c t) else None
          | [] => None
          end).
  destruct (rest p) as [|c t]; [discriminate|].
  rewrite hex_digit_class. destruct (is_hex_digit c) eqn:E; [eauto | discriminate].
Qed.

Lemma exec_times_hex {A} (n : nat) :
  forall (p : cursor) (k : cursor -> option A) (a : A),
    exec false (times n hex_digit) p k = Some a ->
    exists ds q, rest p = ds ++ rest q /\ length ds = n
                 /\ forallb is_hex_digit ds = true /\ k q = Some a.
Proof.
  induction n as [|n IH]; intros p k a Hx.
  - exists [], p. by repeat split.
  - change (exec false hex_digit p (fun q => exec false (times n hex_digit) q k) = Some a) in Hx.
    apply exec_hex_digit in Hx as (c & t & Hp & Hc & Hx).
    apply IH in Hx as (ds & q & Hds & Hlen & Hall & Hk).
    exists (c :: ds), q. simpl in Hds. rewrite Hp, Hds. simpl. rewrite Hc, Hall, Hlen.
    by repeat split.
Qed.

Lemma exec_upto_hex {A} (n : nat) :
  forall (p : cursor) (k : cursor -> option A) (a : A),
    exec false (upto n hex_digit) p k = Some a ->
    exists ds q, rest p = ds ++ rest q /\ (length ds <= n)%nat
                 /\ forallb is_hex_digit ds = true /\ k q = Some a.
Proof.
  induction n as [|n IH]; intros p k a Hx.
  - exists [], p. by repeat split.
  - change (match exec false hex_digit p (fun q => exec false (upto n hex_digit) q k) with
            | Some x => Some x
            | None => k p
            end = Some a) in Hx.
    destruct (exec false hex_digit p _) as [x|] eqn:E.
    + injection Hx as ->.
      apply exec_hex_digit in E as (c & t & Hp & Hc & Hx).
      apply IH in Hx as (ds & q & Hds & Hlen & Hall & Hk).
      exists (c :: ds), q. simpl in Hds. rewrite Hp, Hds. simpl. rewrite Hc, Hall.
      repeat split; [lia | exact Hk].
    + exists [], p. repeat split; [simpl; lia | exact Hx].
Qed.

(** A match of the hex pattern is [#] followed by 3 to 8 hex digits. *)
Lemma hex_match_shape (before : option char) (s : str) (m : re_match) :
  match_here false hex_pattern before s = Some m -> is_hex_literal (group0 m) = true.
Proof.
  unfold match_here, hex_pattern, Rep.
  change (seq [Lit HASH; Cat (times 3 hex_digit) (upto (8 - 3) hex_digit); Bound])
    with (Cat (Lit HASH) (Cat (Cat (times 3 hex_digit) (upto 5 hex_digit)) Bound)).
  cbn [exec]. cbn [rest step]. destruct s as [|h t]; [discriminate|].
  destruct (N.eqb_spec HASH h) as [<- | _]; [|discriminate].
  intros Hx.
  apply exec_times_hex in Hx as (ds1 & q1 & H1 & Hlen1 & Hall1 & Hx).
  apply exec_upto_hex in Hx as (ds2 & q2 & H2 & Hlen2 & Hall2 & Hx).
  destruct (xorb _ _); [|discriminate]. injection Hx as <-.
  cbn [advance rest] in H1. cbn [group0].
  rewrite H1, H2. cbn [length].
  replace (HASH :: ds1 ++ ds2 ++ rest q2) with ((HASH :: ds1 ++ ds2) ++ rest q2)
    by (simpl; by rewrite <- app_assoc).
  replace (S (length (ds1 ++ ds2 ++ rest q2)) - length (rest q2))%nat
    with (length (HASH :: ds1 ++ ds2))
    by (simpl; rewrite !length_app; lia).
  rewrite take_app_length. unfold is_hex_literal.
  rewrite N.eqb_refl, forallb_app, Hall1, Hall2, length_app, Hlen1. simpl.
  rewrite andb_true_r. apply Nat.leb_le. lia.
Qed.

Lemma hex_matches_are_literals (code : str) :
  Forall (fun m => is_hex_literal (group0 m) = true) (re_finditer false hex_pattern code).
Proof.
  apply Forall_forall. intros m Hm.
  apply finditer_from_sound in Hm as (b & t & Hm). eapply hex_match_shape, Hm.
Qed.

Lemma named_matches_have_group (code : str) :
  Forall (fun m => is_Some (group1 m)) (re_finditer true named_pattern code).
Proof.
  apply Forall_forall. intros m Hm.
  apply finditer_from_sound in Hm as (b & t & Hm).
  unfold named_pattern in Hm. eapply group_then_bound, Hm.
Qed.

End RegexFacts.

(** ** The checkers and the report *)

(** No forbidden colour name is the beginning of another one, so the order
    of the alternatives of [named_pattern] does not matter. *)
Lemma named_colors_prefix_free :
  forallb (fun a => forallb (fun b => bool_decide (a = b) || negb (startswith (u b) (u a)))
                            _NAMED_COLORS) _NAMED_COLORS = true.
Proof. vm_compute. reflexivity. Qed.

Lemma syntax_error_tagged (m : str) :
  startswith m (u "SYNTAX_ERROR:") = true -> has_error_tag m = true.
Proof.
  intros Hm. apply existsb_exists. exists "SYNTAX_ERROR"%string.
  split; [|exact Hm]. unfold error_tags. repeat (first [left; reflexivity | right]).
Qed.

(** [validate_syntax] returns, and all it returns are SYNTAX_ERROR messages. *)
Lemma validate_syntax_ok (code : str) :
  exists e, validate_syntax code = Ok e /\ Forall (fun m => has_error_tag m = true) e.
Proof.
  destruct (scan_ok code) as (st & Hscan & Hok & Herrs).
  destruct (unclosed_spec (stack st) Hok (syntax_errors st)) as (msgs & Hun & HF).
  exists (syntax_errors st ++ msgs). split.
  - unfold validate_syntax. rewrite Hscan. exact Hun.
  - apply Forall_app. split.
    + eapply Forall_impl; [exact Herrs|]. apply syntax_error_tagged.
    + clear Hun. induction HF as [|e m stk msgs (name & closer & _ & _ & ->) _ IH];
        constructor; [reflexivity | exact IH].
Qed.

Section Facts.
Context `{PyUnicode}.

Lemma subscript_some (tokens : gmap str str) (key : string) :
  is_Some (tokens !! u key) -> exists v, subscript tokens key = Ok v.
Proof. intros [v Hv]. exists v. unfold subscript. by rewrite Hv. Qed.

Lemma subscript_none (tokens : gmap str str) (key : string) :
  tokens !! u key = None -> subscript tokens key = Raise (KeyError (u key)).
Proof. intros Hv. unfold subscript. by rewrite Hv. Qed.

Lemma validate_design_tokens_ok (code : str) (tokens : gmap str str) :
  is_Some (tokens !! u "primary_color") ->
  is_Some (tokens !! u "border_radius") ->
  is_Some (tokens !! u "font_family") ->
  exists e, validate_design_tokens code tokens = Ok e
            /\ Forall (fun m => has_error_tag m = true) e.
Proof.
  intros Hp Hr Hf.
  apply subscript_some in Hp as [p Hp].
  apply subscript_some in Hr as [r Hr].
  apply subscript_some in Hf as [f Hf].
  unfold validate_design_tokens. rewrite Hp, Hr, Hf. cbn [bind].
  destruct (negb (contains (str_lower code) (str_lower p)));
    destruct (negb (contains code r));
    destruct (negb (contains (str_lower code) (str_lower f)));
    (eexists; split; [reflexivity|]); repeat constructor.
Qed.

(** The accumulator of errors only grows in the loop over the hex literals. *)
Lemma hex_fold_app (p s : str) (A : gset str) (ms : list re_match) :
  forall (seen : gset str) (errs : list str),
    fold_left (hex_step p s A) ms (seen, errs)
    = ((fold_left (hex_step p s A) ms (seen, [])).1,
       errs ++ (fold_left (hex_step p s A) ms (seen, [])).2).
Proof.
  induction ms as [|m ms IH]; intros seen errs; simpl.
  - by rewrite app_nil_r.
  - destruct (bool_decide _ && bool_decide _).
    + rewrite (IH _ (errs ++ [_])), (IH _ [_]). simpl. by rewrite <- app_assoc.
    + apply IH.
Qed.

Lemma hex_fold_tagged (p s : str) (A : gset str) (ms : list re_match) :
  forall (seen : gset str),
    Forall (fun m => startswith m (u "UNAUTHORISED_HEX_COLOR:") = true)
           (fold_left (hex_step p s A) ms (seen, [])).2.
Proof.
  induction ms as [|m ms IH]; intros seen; simpl; [constructor|].
  destruct (bool_decide _ && bool_decide _); [|apply IH].
  rewrite (hex_fold_app _ _ _ _ _ [_]). simpl. constructor; [reflexivity | apply IH].
Qed.

Lemma named_loop_ok (ms : list re_match) :
  Forall (fun m => is_Some (group1 m)) ms ->
  forall errs, exists msgs,
    named_loop ms errs = Ok (errs ++ msgs)
    /\ Forall (fun m => startswith m (u "UNAUTHORISED_NAMED_COLOR:") = true) msgs.
Proof.
  induction 1 as [|m ms [name Hname] _ IH]; intros errs; simpl.
  - exists []. split; [by rewrite app_nil_r | constructor].
  - unfold named_step. rewrite Hname.
    destruct (bool_decide _); cbn [bind].
    + destruct (IH (errs ++ [named_msg name])) as (msgs & -> & HF).
      exists (named_msg name :: msgs). split; [by rewrite <- app_assoc|].
      constructor; [reflexivity | exact HF].
    + apply IH.
Qed.

Lemma tagged (tag : string) :
  tag ∈ error_tags ->
  forall m, startswith m (u tag ++ u ":") = true -> has_error_tag m = true.
Proof.
  intros Htag m Hm. apply existsb_exists. exists tag.
  split; [by apply list_elem_of_In | exact Hm].
Qed.

(** With both colour tokens present, [validate_colors] returns the
    diagnostics of its three rules, in the order of the rules. *)
Lemma validate_colors_eq (code : str) (tokens : gmap str str) (p s : str) :
  subscript tokens "primary_color" = Ok p ->
  subscript tokens "secondary_color" = Ok s ->
  exists named,
    validate_colors code tokens
    = Ok (functional_errors code p s ++ hex_errors code p s ++ named)
    /\ Forall (fun m => startswith m (u "UNAUTHORISED_NAMED_COLOR:") = true) named.
Proof.
  intros Hp Hs. unfold validate_colors. rewrite Hp, Hs.
  destruct (named_loop_ok _ (named_matches_have_group code)
              (functional_errors code p s ++ hex_errors code p s)) as (named & Hn & HF).
  exists named. split; [|exact HF]. rewrite <- app_assoc in Hn. rewrite <- Hn.
  unfold functional_errors, hex_errors, normalised_approved_for.
  destruct (truthy (re_search true functional_pattern code)); cbn [bind];
    rewrite hex_fold_app; reflexivity.
Qed.

Lemma validate_colors_ok (code : str) (tokens : gmap str str) :
  is_Some (tokens !! u "primary_color") ->
  is_Some (tokens !! u "secondary_color") ->
  exists e, validate_colors code tokens = Ok e
            /\ Forall (fun m => has_error_tag m = true) e.
Proof.
  intros Hp Hs.
  apply subscript_some in Hp as [p Hp]. apply subscript_some in Hs as [s Hs].
  destruct (validate_colors_eq code tokens p s Hp Hs) as (named & -> & HF).
  eexists; split; [reflexivity|]. repeat apply Forall_app_2.
  - unfold functional_errors. destruct (truthy _); repeat constructor.
  - eapply Forall_impl; [apply hex_fold_tagged|].
    apply (tagged "UNAUTHORISED_HEX_COLOR"). repeat constructor.
  - eapply Forall_impl; [exact HF|].
    apply (tagged "UNAUTHORISED_NAMED_COLOR"). repeat constructor.
Qed.

Lemma validate_structure_tagged (code : str) :
  Forall (fun m => has_error_tag m = true) (validate_structure code).
Proof.
  unfold validate_structure.
  destruct (negb (contains code _)); destruct (negb (truthy _));
    destruct (last _) as [c|]; try destruct (negb (c =? _));
    destruct (truthy _); try destruct (negb (existsb _ _));
    repeat constructor.
Qed.

Lemma warn_spacing_tagged (code : str) (tokens : gmap str str) :
  Forall (fun m => has_warning_tag m = true) (_warn_spacing_token code tokens).
Proof.
  unfold _warn_spacing_token. destruct (_ && _); repeat constructor.
Qed.

(** What a returned report is made of. *)
Lemma validate_component_inv (code : str) (tokens : gmap str str) (r : report) :
  validate_component code tokens = Ok r ->
  exists e1 e2 e4,
    validate_design_tokens code tokens = Ok e1
    /\ validate_colors code tokens = Ok e2
    /\ validate_syntax code = Ok e4
    /\ r = {| is_valid := (length (e1 ++ e2 ++ validate_structure code ++ e4) =? 0)%nat;
              errors := e1 ++ e2 ++ validate_structure code ++ e4;
              warnings := _warn_spacing_token code tokens |}.
Proof.
  unfold validate_component. intros Hr.
  apply bind_ok in Hr as (e1 & H1 & Hr).
  apply bind_ok in Hr as (e2 & H2 & Hr).
  apply bind_ok in Hr as (e4 & H4 & Hr).
  exists e1, e2, e4. repeat split; try assumption.
  injection Hr as <-. simpl. rewrite <- !app_assoc. reflexivity.
Qed.

Lemma validate_component_returns (code : str) (tokens : gmap str str) :
  is_Some (tokens !! u "primary_color") ->
  is_Some (tokens !! u "secondary_color") ->
  is_Some (tokens !! u "border_radius") ->
  is_Some (tokens !! u "font_family") ->
  exists r, validate_component code tokens = Ok r.
Proof.
  intros Hp Hs Hr Hf.
  destruct (validate_design_tokens_ok code tokens Hp Hr Hf) as (e1 & H1 & _).
  destruct (validate_colors_ok code tokens Hp Hs) as (e2 & H2 & _).
  destruct (validate_syntax_ok code) as (e4 & H4 & _).
  unfold validate_component. rewrite H1, H2, H4. cbn [bind]. eauto.
Qed.

End Facts.

Lemma demo_tokens_complete : complete demo_tokens.
Proof. repeat split; vm_compute; eauto. Qed.

(** C1. On a complete token set [validate_component] returns a report in
    which [is_valid] is the test [len(errors) == 0], so it holds exactly
    when [errors] is empty; and any report with the same errors has the
    same [is_valid], whatever its warnings are. *)
Theorem is_valid_iff_no_errors `{PyUnicode} (code : str) (tokens : gmap str str) :
  complete tokens ->
  exists r,
    validate_component code tokens = Ok r
    /\ is_valid r = (length (errors r) =? 0)%nat
    /\ (is_valid r = true <-> errors r = [])
    /\ (forall code' tokens' r',
          validate_component code' tokens' = Ok r' ->
          errors r' = errors r -> is_valid r' = is_valid r).
Proof.
  intros (Hp & Hs & Hr & Hf & _).
  destruct (validate_component_returns code tokens Hp Hs Hr Hf) as [r Hret].
  exists r. split; [exact Hret|].
  assert (Hv : forall c t r0, validate_component c t = Ok r0 ->
                              is_valid r0 = (length (errors r0) =? 0)%nat).
  { intros c t r0 H0. apply validate_component_inv in H0 as (e1 & e2 & e4 & _ & _ & _ & ->).
    reflexivity. }
  split; [eapply Hv, Hret|]. split.
  - rewrite (Hv _ _ _ Hret). destruct (errors r); simpl; split; congruence.
  - intros code' tokens' r' Hr' He. rewrite (Hv _ _ _ Hret), (Hv _ _ _ Hr'), He. reflexivity.
Qed.

Lemma spacing_24_complete : complete (<[ u "spacing" := u "24px" ]> demo_tokens).
Proof. repeat split; vm_compute; eauto. Qed.

(** A compliant component checked against a spacing token it does not use:
    one warning, no error, and the report is valid. *)
Lemma is_valid_iff_no_errors_witness :
  exists r,
    @validate_component ascii_tables demo_code (<[ u "spacing" := u "24px" ]> demo_tokens) = Ok r
    /\ is_valid r = (length (errors r) =? 0)%nat
    /\ is_valid r = true
    /\ warnings r = [spacing_msg (u "24px")].
Proof.
  destruct (@is_valid_iff_no_errors ascii_tables demo_code
              (<[ u "spacing" := u "24px" ]> demo_tokens) spacing_24_complete)
    as (r & Hr & Hv & _).
  exists r. split; [exact Hr|]. split; [exact Hv|].
  assert (Hc : @validate_component ascii_tables demo_code
                 (<[ u "spacing" := u "24px" ]> demo_tokens)
               = Ok {| is_valid := true; errors := [];
                       warnings := [spacing_msg (u "24px")] |})
    by (vm_compute; reflexivity).
  rewrite Hc in Hr. injection Hr as <-. split; reflexivity.
Defined.

(** C7. On a complete token set the errors of the report are the
    diagnostics of the token-presence checker, then those of the colour
    checker, then those of the structural checker, then those of the syntax
    checker, each list as its checker returned it. *)
Theorem errors_in_checker_order `{PyUnicode} (code : str) (tokens : gmap str str) :
  complete tokens ->
  exists r e1 e2 e4,
    validate_component code tokens = Ok r
    /\ validate_design_tokens code tokens = Ok e1
    /\ validate_colors code tokens = Ok e2
    /\ validate_syntax code = Ok e4
    /\ errors r = e1 ++ e2 ++ validate_structure code ++ e4.
Proof.
  intros (Hp & Hs & Hr & Hf & _).
  destruct (validate_component_returns code tokens Hp Hs Hr Hf) as [r Hret].
  destruct (validate_component_inv _ _ _ Hret) as (e1 & e2 & e4 & H1 & H2 & H4 & Hrep).
  exists r, e1, e2, e4. repeat split; try assumption. by rewrite Hrep.
Qed.

(** A source that fails checks of each checker: the diagnostics come in
    the order of the checkers. *)
Lemma errors_in_checker_order_witness :
  exists r e1 e2 e4,
    @validate_component ascii_tables (u "a { color: red ]") demo_tokens = Ok r
    /\ @validate_design_tokens ascii_tables (u "a { color: red ]") demo_tokens = Ok e1
    /\ @validate_colors ascii_tables (u "a { color: red ]") demo_tokens = Ok e2
    /\ validate_syntax (u "a { color: red ]") = Ok e4
    /\ errors r = e1 ++ e2 ++ @validate_structure ascii_tables (u "a { color: red ]") ++ e4.
Proof.
  apply (@errors_in_checker_order ascii_tables (u "a { color: red ]") demo_tokens).
  exact demo_tokens_complete.
Defined.

(** C8. On a complete token set, for every source text, none of the
    checkers raises and [validate_component] returns a report; a
    diagnostic is among the errors of the report exactly when one of the
    four checkers returned it, and the warnings of the report are what the
    spacing check returned: all that the checkers detect is in the report,
    and nothing is raised. *)
Theorem validate_component_reports_and_never_raises `{PyUnicode}
  (code : str) (tokens : gmap str str) :
  complete tokens ->
  exists (r : report) (e1 e2 e4 : list str),
    validate_design_tokens code tokens = Ok e1
    /\ validate_colors code tokens = Ok e2
    /\ validate_syntax code = Ok e4
    /\ validate_component code tokens = Ok r
    /\ (forall d : str,
          d ∈ errors r
          <-> d ∈ e1 \/ d ∈ e2 \/ d ∈ validate_structure code \/ d ∈ e4)
    /\ warnings r = _warn_spacing_token code tokens.
Proof.
  intros (Hp & Hs & Hr & Hf & _).
  destruct (validate_component_returns code tokens Hp Hs Hr Hf) as [r Hret].
  destruct (validate_component_inv _ _ _ Hret) as (e1 & e2 & e4 & H1 & H2 & H4 & Hrep).
  exists r, e1, e2, e4. repeat (split; [assumption|]). subst r. cbn [errors warnings].
  split; [|reflexivity]. intros d. rewrite !elem_of_app. tauto.
Qed.

(** A text with an escaped backslash in a string, stray closers, a
    functional colour, a foreign hex colour and an unclosed template
    string: the report is returned, and it holds a diagnostic of the
    structural checker and one of the syntax checker. *)
Lemma validate_component_reports_and_never_raises_witness :
  exists r,
    @validate_component ascii_tables
      (u "'\\' ) rgb(1,2,3) #123 ] `${") demo_tokens = Ok r
    /\ no_decorator_msg ∈ errors r
    /\ unexpected_msg (u "closing bracket ']'") 1 (c_of "]") ∈ errors r.
Proof.
  destruct (@validate_component_reports_and_never_raises ascii_tables
              (u "'\\' ) rgb(1,2,3) #123 ] `${") demo_tokens demo_tokens_complete)
    as (r & e1 & e2 & e4 & _ & _ & H4 & Hr & Hin & _).
  exists r. split; [exact Hr|]. split.
  - apply Hin. right. right. left. vm_compute. apply list_elem_of_In. simpl. tauto.
  - apply Hin. right. right. right.
    assert (E : validate_syntax (u "'\\' ) rgb(1,2,3) #123 ] `${")
                = Ok [unexpected_msg (u "closing parenthesis ')'") 1 (c_of ")");
                      unexpected_msg (u "closing bracket ']'") 1 (c_of "]")])
      by (vm_compute; reflexivity).
    rewrite E in H4. injection H4 as <-. apply list_elem_of_In. simpl. tauto.
Defined.

(** C10. On a complete token set, every error of the report begins with
    one of the eight error tags followed by a colon, and every warning
    begins with "SPACING_SUGGESTION:". *)
Theorem diagnostics_are_tagged `{PyUnicode} (code : str) (tokens : gmap str str) :
  complete tokens ->
  exists r,
    validate_component code tokens = Ok r
    /\ Forall (fun m => has_error_tag m = true) (errors r)
    /\ Forall (fun m => has_warning_tag m = true) (warnings r).
Proof.
  intros (Hp & Hs & Hr & Hf & _).
  destruct (validate_component_returns code tokens Hp Hs Hr Hf) as [r Hret].
  exists r. split; [exact Hret|].
  apply validate_component_inv in Hret as (e1 & e2 & e4 & H1 & H2 & H4 & ->). simpl.
  destruct (validate_design_tokens_ok code tokens Hp Hr Hf) as (e1' & H1' & T1).
  destruct (validate_colors_ok code tokens Hp Hs) as (e2' & H2' & T2).
  destruct (validate_syntax_ok code) as (e4' & H4' & T4).
  assert (e1' = e1) as -> by congruence.
  assert (e2' = e2) as -> by congruence.
  assert (e4' = e4) as -> by congruence.
  split; [|apply warn_spacing_tagged].
  repeat apply Forall_app_2; auto using validate_structure_tagged.
Qed.

Lemma diagnostics_are_tagged_witness :
  exists r,
    @validate_component ascii_tables (u "a { color: red; b: #123; c: rgb(1,2,3) ]") demo_tokens
    = Ok r
    /\ Forall (fun m => has_error_tag m = true) (errors r)
    /\ Forall (fun m => has_warning_tag m = true) (warnings r).
Proof.
  apply (@diagnostics_are_tagged ascii_tables). exact demo_tokens_complete.
Defined.

Section MissingKeys.
Context `{PyUnicode}.

Lemma validate_colors_raises (code : str) (tokens : gmap str str) :
  is_Some (tokens !! u "primary_color") ->
  tokens !! u "secondary_color" = None ->
  validate_colors code tokens = Raise (KeyError (u "secondary_color")).
Proof.
  intros Hp Hs. apply subscript_some in Hp as [p Hp]. apply subscript_none in Hs.
  unfold validate_colors. rewrite Hp, Hs.
  destruct (truthy (re_search true functional_pattern code)); reflexivity.
Qed.

Lemma validate_design_tokens_raises (code : str) (tokens : gmap str str) :
  tokens !! u "primary_color" = None
  \/ tokens !! u "border_radius" = None
  \/ tokens !! u "font_family" = None ->
  exists key,
    key ∈ ["primary_color"; "border_radius"; "font_family"]%string
    /\ tokens !! u key = None
    /\ validate_design_tokens code tokens = Raise (KeyError (u key)).
Proof.
  intros Hmiss. unfold validate_design_tokens.
  destruct (tokens !! u "primary_color") as [p|] eqn:Hp.
  2:{ exists "primary_color"%string. rewrite (subscript_none _ _ Hp).
      split; [repeat constructor | split; [exact Hp | reflexivity]]. }
  destruct (tokens !! u "border_radius") as [r|] eqn:Hr.
  2:{ exists "border_radius"%string.
      destruct (subscript_some tokens "primary_color" (mk_is_Some _ _ Hp)) as [? ->].
      rewrite (subscript_none _ _ Hr).
      split; [repeat constructor | split; [exact Hr | reflexivity]]. }
  destruct (tokens !! u "font_family") as [f|] eqn:Hf.
  2:{ exists "font_family"%string.
      destruct (subscript_some tokens "primary_color" (mk_is_Some _ _ Hp)) as [? ->].
      destruct (subscript_some tokens "border_radius" (mk_is_Some _ _ Hr)) as [? ->].
      rewrite (subscript_none _ _ Hf).
      split; [repeat constructor | split; [exact Hf | reflexivity]]. }
  destruct Hmiss as [? | [? | ?]]; discriminate.
Qed.

End MissingKeys.

(** C9, as the code has it.  A token set that lacks [primary_color],
    [secondary_color], [border_radius] or [font_family] makes
    [validate_component] raise [KeyError] for such a missing key, and no
    report is returned.  A token set that has these four and lacks [spacing]
    is read with [tokens.get("spacing", "")]: a report is returned, with no
    warning. *)
Theorem missing_key_raises_except_spacing `{PyUnicode} :
  (forall (code : str) (tokens : gmap str str) (key : string),
     key ∈ ["primary_color"; "secondary_color"; "border_radius"; "font_family"]%string ->
     tokens !! u key = None ->
     exists key',
       key' ∈ ["primary_color"; "secondary_color"; "border_radius"; "font_family"]%string
       /\ tokens !! u key' = None
       /\ validate_component code tokens = Raise (KeyError (u key')))
  /\ (forall (code : str) (tokens : gmap str str),
        is_Some (tokens !! u "primary_color") ->
        is_Some (tokens !! u "secondary_color") ->
        is_Some (tokens !! u "border_radius") ->
        is_Some (tokens !! u "font_family") ->
        tokens !! u "spacing" = None ->
        exists r, validate_component code tokens = Ok r /\ warnings r = []).
Proof.
  split.
  - intros code tokens key Hkey Hnone.
    destruct (tokens !! u "primary_color") as [p|] eqn:Hp;
      [destruct (tokens !! u "border_radius") as [r|] eqn:Hr;
       [destruct (tokens !! u "font_family") as [f|] eqn:Hf|]|].
    + (* the three keys of the first checker are there: the second one raises *)
      assert (Hs : tokens !! u "secondary_color" = None).
      { repeat (apply elem_of_cons in Hkey as [-> | Hkey]); try congruence.
        inversion Hkey. }
      exists "secondary_color"%string.
      split; [repeat constructor|]. split; [exact Hs|].
      destruct (validate_design_tokens_ok code tokens) as (e1 & H1 & _); eauto.
      unfold validate_component. rewrite H1. cbn [bind].
      rewrite validate_colors_raises; eauto.
    + destruct (validate_design_tokens_raises code tokens) as (k & Hk & Hn & Hraise); [auto|].
      exists k. split; [|split; [exact Hn|]].
      * repeat (apply elem_of_cons in Hk as [-> | Hk]); [repeat constructor.. | inversion Hk].
      * unfold validate_component. rewrite Hraise. reflexivity.
    + destruct (validate_design_tokens_raises code tokens) as (k & Hk & Hn & Hraise); [auto|].
      exists k. split; [|split; [exact Hn|]].
      * repeat (apply elem_of_cons in Hk as [-> | Hk]); [repeat constructor.. | inversion Hk].
      * unfold validate_component. rewrite Hraise. reflexivity.
    + destruct (validate_design_tokens_raises code tokens) as (k & Hk & Hn & Hraise); [auto|].
      exists k. split; [|split; [exact Hn|]].
      * repeat (apply elem_of_cons in Hk as [-> | Hk]); [repeat constructor.. | inversion Hk].
      * unfold validate_component. rewrite Hraise. reflexivity.
  - intros code tokens Hp Hs Hr Hf Hsp.
    destruct (validate_component_returns code tokens Hp Hs Hr Hf) as [r Hret].
    exists r. split; [exact Hret|].
    apply validate_component_inv in Hret as (e1 & e2 & e4 & _ & _ & _ & ->). simpl.
    unfold _warn_spacing_token, get_default. rewrite Hsp. reflexivity.
Qed.

(** A token set without [secondary_color]: the call raises. *)
Lemma missing_key_raises_except_spacing_witness :
  exists key',
    key' ∈ ["primary_color"; "secondary_color"; "border_radius"; "font_family"]%string
    /\ delete (u "secondary_color") demo_tokens !! u key' = None
    /\ @validate_component ascii_tables demo_code (delete (u "secondary_color") demo_tokens)
       = Raise (KeyError (u key')).
Proof.
  apply (proj1 (@missing_key_raises_except_spacing ascii_tables)
           demo_code (delete (u "secondary_color") demo_tokens) "secondary_color"%string).
  - repeat constructor.
  - vm_compute. reflexivity.
Defined.

(** C9 fails for [spacing]: without that key the validator returns a
    report (here a valid one, with no warning) and raises nothing. *)
Lemma missing_spacing_does_not_raise :
  delete (u "spacing") demo_tokens !! u "spacing" = None
  /\ @validate_component ascii_tables demo_code (delete (u "spacing") demo_tokens)
     = Ok {| is_valid := true; errors := []; warnings := [] |}.
Proof. split; vm_compute; reflexivity. Qed.

(** ** Hex normalisation *)

Lemma ascii_lower_char_idem (c : char) :
  ascii_lower_char (ascii_lower_char c) = ascii_lower_char c.
Proof.
  unfold ascii_lower_char, is_ascii_upper.
  destruct ((65 <=? c) && (c <=? 90)) eqn:E; [|by rewrite E].
  apply andb_true_iff in E as [E1 E2]. apply N.leb_le in E1, E2.
  destruct (N.leb_spec (c + 32) 90); [lia|]. by rewrite andb_false_r.
Qed.

Lemma hex_digit_lower (c : char) :
  is_hex_digit c = true -> c < 128 /\ is_lower_hex_digit (ascii_lower_char c) = true.
Proof.
  unfold is_hex_digit, is_lower_hex_digit, ascii_lower_char, is_ascii_upper, is_ascii_digit.
  rewrite !orb_true_iff, !andb_true_iff, !N.leb_le. intros Hc.
  split; [lia|].
  destruct ((65 <=? c) && (c <=? 90)) eqn:E.
  - apply andb_true_iff in E. rewrite !N.leb_le in E. lia.
  - apply andb_false_iff in E. rewrite !N.leb_gt in E. lia.
Qed.

Lemma hex_digits_lower (ds : str) :
  forallb is_hex_digit ds = true ->
  Forall (fun c => c < 128) ds
  /\ forallb is_lower_hex_digit (map ascii_lower_char ds) = true.
Proof.
  induction ds as [|d ds IH]; simpl; [by split|].
  intros Hd. apply andb_true_iff in Hd as [Hd Hds].
  apply hex_digit_lower in Hd as [Hlt Hlow]. destruct (IH Hds) as [IH1 IH2].
  split; [by constructor | by rewrite Hlow, IH2].
Qed.

(** C6, as the code has it.  For any Unicode tables that lower ASCII
    strings as CPython does and leave unchanged a string made of characters
    of lowered strings (CPython's [str.lower] does both): [_normalise_hex]
    is idempotent, it sends "#fff" and "#ffffff" to the same string, and a
    hex literal matched in a source, which is [#] followed by 3 to 8 hex
    digits, is sent to the lowercase 6-digit form when it has 3 or 6 digits
    and is only lowercased, keeping its digits, when it has 4, 5, 7 or 8. *)
Theorem normalise_hex_idempotent_and_expands_three_digits `{PyUnicode} :
  (forall s, Forall (fun c => c < 128) s -> str_lower s = map ascii_lower_char s) ->
  (forall t, Forall (fun c => exists s, c ∈ str_lower s) t -> str_lower t = t) ->
  (forall x, _normalise_hex (_normalise_hex x) = _normalise_hex x)
  /\ _normalise_hex (u "#fff") = _normalise_hex (u "#ffffff")
  /\ (forall code x, x ∈ hex_literals code ->
        is_hex_literal x = true
        /\ (length x = 4%nat \/ length x = 7%nat -> is_lower_hex6 (_normalise_hex x) = true)
        /\ (length x <> 4%nat ->
            _normalise_hex x = map ascii_lower_char x
            /\ length (_normalise_hex x) = length x)).
Proof.
  intros Hascii Hfix.
  assert (Hhash : HASH ∈ str_lower [HASH]).
  { rewrite Hascii by (repeat constructor). repeat constructor. }
  split; [|split].
  - intros x. unfold _normalise_hex.
    assert (Hself : str_lower (str_lower x) = str_lower x).
    { apply Hfix, Forall_forall. eauto. }
    assert (Hin : forall c, c ∈ str_lower x -> exists s, c ∈ str_lower s) by eauto.
    destruct (str_lower x) as [|c0 [|c1 [|c2 [|c3 [|c4 t]]]]] eqn:E;
      try (rewrite Hself; reflexivity).
    rewrite Hfix; [reflexivity|].
    assert (H1 : exists s, c1 ∈ str_lower s) by (apply Hin; repeat constructor).
    assert (H2 : exists s, c2 ∈ str_lower s) by (apply Hin; repeat constructor).
    assert (H3 : exists s, c3 ∈ str_lower s) by (apply Hin; repeat constructor).
    repeat constructor; eauto.
  - unfold _normalise_hex. rewrite !Hascii by (vm_compute; repeat constructor).
    reflexivity.
  - intros code x Hin.
    assert (Hx : is_hex_literal x = true).
    { apply list_elem_of_fmap in Hin as (m & -> & Hm).
      eapply (proj1 (Forall_forall _ _) (hex_matches_are_literals code)), Hm. }
    split; [exact Hx|].
    destruct x as [|h ds]; [discriminate|]. unfold is_hex_literal in Hx.
    apply andb_true_iff in Hx as [Hx Hds]. apply andb_true_iff in Hx as [Hx Hhi].
    apply andb_true_iff in Hx as [Hh Hlo]. apply N.eqb_eq in Hh as ->.
    apply Nat.leb_le in Hlo, Hhi.
    destruct (hex_digits_lower ds Hds) as [Hlt Hlow].
    assert (Hl : str_lower (HASH :: ds) = HASH :: map ascii_lower_char ds).
    { rewrite Hascii; [reflexivity|]. constructor; [reflexivity | exact Hlt]. }
    unfold _normalise_hex. rewrite Hl. split.
    + intros [Hlen | Hlen]; simpl in Hlen.
      * destruct ds as [|d1 [|d2 [|d3 [|d4 ds]]]]; try discriminate.
        simpl in *. repeat (apply andb_true_iff in Hlow as [?H Hlow]).
        repeat (apply andb_true_iff; split); assumption.
      * destruct ds as [|d1 [|d2 [|d3 [|d4 [|d5 [|d6 [|d7 ds]]]]]]]; try discriminate.
        simpl in *. exact Hlow.
    + intros Hlen. simpl in Hlen.
      destruct ds as [|d1 [|d2 [|d3 [|d4 ds]]]]; simpl in *; try lia;
        (split; [reflexivity | by rewrite ?length_map]).
Qed.

Lemma ascii_tables_lower_fixed (t : str) :
  Forall (fun c => exists s, c ∈ @str_lower ascii_tables s) t -> @str_lower ascii_tables t = t.
Proof.
  induction 1 as [|c t [s Hc] _ IH]; simpl in *; [reflexivity|].
  rewrite IH. f_equal.
  apply list_elem_of_fmap in Hc as (d & -> & _). apply ascii_lower_char_idem.
Qed.

Lemma normalise_hex_idempotent_and_expands_three_digits_witness :
  @_normalise_hex ascii_tables (@_normalise_hex ascii_tables (u "#ABC"))
  = @_normalise_hex ascii_tables (u "#ABC")
  /\ @_normalise_hex ascii_tables (u "#ABC") = u "#aabbcc".
Proof.
  split; [|vm_compute; reflexivity].
  apply (proj1 (@normalise_hex_idempotent_and_expands_three_digits ascii_tables
                  (fun s _ => eq_refl) ascii_tables_lower_fixed)).
Defined.

(** C6 fails on a 4-digit literal: "#abcd" is matched as a hex literal and
    normalised to itself, which is not the 6-digit form. *)
Lemma four_digit_literal_is_not_expanded :
  map group0 (@re_finditer ascii_tables false hex_pattern (u "color: #abcd;")) = [u "#abcd"]
  /\ is_hex_literal (u "#abcd") = true
  /\ @_normalise_hex ascii_tables (u "#abcd") = u "#abcd"
  /\ is_lower_hex6 (@_normalise_hex ascii_tables (u "#abcd")) = false.
Proof. vm_compute. repeat split; reflexivity. Qed.

(** ** The hex-allowlist rule *)

Section HexRule.
Context `{PyUnicode}.

Lemma hex_fold_spec (p s : str) (A : gset str) (ms : list re_match) :
  forall seen : gset str,
    exists kept : list str,
      (fold_left (hex_step p s A) ms (seen, [])).2 = (fun t => hex_msg t p s) <$> kept
      /\ kept `sublist_of` filter (fun t => _normalise_hex (str_lower t) ∉ A) (group0 <$> ms)
      /\ NoDup (str_lower <$> kept)
      /\ (forall t, t ∈ kept -> str_lower t ∉ seen)
      /\ (forall t, t ∈ group0 <$> ms -> _normalise_hex (str_lower t) ∉ A ->
                    str_lower t ∈ seen \/ str_lower t ∈ str_lower <$> kept).
Proof.
  induction ms as [|m ms IH]; intros seen.
  - exists []. split; [reflexivity|]. split; [apply sublist_nil_l|].
    split; [constructor|]. split; intros t Ht; inversion Ht.
  - cbn [fold_left fmap list_fmap]. unfold hex_step at 2.
    destruct (decide (_normalise_hex (str_lower (group0 m)) ∉ A)) as [Hbad | Hgood];
      [destruct (decide (str_lower (group0 m) ∉ seen)) as [Hnew | Hold]|].
    + rewrite !bool_decide_eq_true_2 by assumption. cbn [andb].
      rewrite hex_fold_app. cbn [snd app].
      destruct (IH (seen ∪ {[ str_lower (group0 m) ]})) as (kept & E & Hsub & Hnd & Hns & Hcov).
      exists (group0 m :: kept). rewrite E.
      split; [reflexivity|]. split; [|split; [|split]].
      * rewrite filter_cons_True by assumption. by apply sublist_skip.
      * cbn [fmap list_fmap]. apply NoDup_cons. split; [|exact Hnd].
        intros Hin. apply list_elem_of_fmap in Hin as (t & Ht & Hin).
        apply (Hns t Hin). rewrite <- Ht. set_solver.
      * intros t Ht. apply elem_of_cons in Ht as [-> | Ht]; [exact Hnew|].
        specialize (Hns t Ht). set_solver.
      * intros t Ht Hb. apply elem_of_cons in Ht as [-> | Ht].
        { right. cbn [fmap list_fmap]. apply list_elem_of_here. }
        destruct (Hcov t Ht Hb) as [Hs | Hk].
        { apply elem_of_union in Hs as [Hs | Hs]; [by left|].
          right. apply elem_of_singleton in Hs. rewrite Hs.
          cbn [fmap list_fmap]. apply list_elem_of_here. }
        right. cbn [fmap list_fmap]. by apply list_elem_of_further.
    + rewrite bool_decide_eq_true_2 by assumption.
      rewrite (bool_decide_eq_false_2 (_ ∉ seen)) by assumption. cbn [andb].
      destruct (IH seen) as (kept & E & Hsub & Hnd & Hns & Hcov).
      exists kept. split; [exact E|]. split; [|split; [exact Hnd | split; [exact Hns|]]].
      * rewrite filter_cons_True by assumption. by apply sublist_cons.
      * intros t Ht Hb. apply elem_of_cons in Ht as [-> | Ht]; [|by apply Hcov].
        left. by apply dec_stable.
    + rewrite (bool_decide_eq_false_2 (_ ∉ A)) by assumption. cbn [andb].
      destruct (IH seen) as (kept & E & Hsub & Hnd & Hns & Hcov).
      exists kept. split; [exact E|]. split; [|split; [exact Hnd | split; [exact Hns|]]].
      * rewrite filter_cons_False by assumption. exact Hsub.
      * intros t Ht Hb. apply elem_of_cons in Ht as [-> | Ht]; [contradiction | by apply Hcov].
Qed.

End HexRule.

(** C5, as the code has it.  With both colour tokens present, the
    UNAUTHORISED_HEX_COLOR diagnostics of [validate_colors] stand between
    those of the functional-notation rule and those of the named-colour
    rule, and there is one of them per distinct lowercased text of a
    disallowed hex literal: the literals they cite are taken, in source
    order, from the disallowed literals, no two of them are equal once
    lowercased, and every disallowed literal is equal, once lowercased, to
    one of them.  The key is the lowercased text, not the normalised
    value and not the raw text. *)
Theorem one_hex_diagnostic_per_lowercased_literal `{PyUnicode}
  (code : str) (tokens : gmap str str) (p s : str) :
  tokens !! u "primary_color" = Some p ->
  tokens !! u "secondary_color" = Some s ->
  exists kept named : list str,
    validate_colors code tokens
    = Ok (functional_errors code p s ++ ((fun t => hex_msg t p s) <$> kept) ++ named)
    /\ Forall (fun m => startswith m (u "UNAUTHORISED_NAMED_COLOR:") = true) named
    /\ kept `sublist_of` filter (disallowed p s) (hex_literals code)
    /\ NoDup (str_lower <$> kept)
    /\ (forall t, t ∈ hex_literals code -> disallowed p s t ->
                  str_lower t ∈ str_lower <$> kept)
    /\ length kept
       = size (list_to_set (str_lower <$> filter (disallowed p s) (hex_literals code))
               : gset str).
Proof.
  intros Hp Hs.
  assert (Hp' : subscript tokens "primary_color" = Ok p) by (unfold subscript; by rewrite Hp).
  assert (Hs' : subscript tokens "secondary_color" = Ok s) by (unfold subscript; by rewrite Hs).
  destruct (validate_colors_eq code tokens p s Hp' Hs') as (named & Hv & Hnamed).
  destruct (hex_fold_spec p s (normalised_approved_for p s)
              (re_finditer false hex_pattern code) ∅)
    as (kept & E & Hsub & Hnd & _ & Hcov).
  exists kept, named. unfold hex_errors in Hv. rewrite E in Hv.
  split; [exact Hv|]. split; [exact Hnamed|]. split; [exact Hsub|]. split; [exact Hnd|].
  assert (Hcov' : forall t, t ∈ hex_literals code -> disallowed p s t ->
                            str_lower t ∈ str_lower <$> kept).
  { intros t Ht Hb. destruct (Hcov t Ht Hb) as [Hempty | Hk]; [set_solver | exact Hk]. }
  split; [exact Hcov'|].
  rewrite <- (length_fmap str_lower kept), <- (size_list_to_set (C := gset str)) by exact Hnd.
  f_equal. apply set_eq. intros x. rewrite !elem_of_list_to_set. split.
  - intros Hx. apply list_elem_of_fmap in Hx as (t & -> & Ht).
    apply list_elem_of_fmap. exists t. split; [reflexivity|]. eapply elem_of_sublist; eauto.
  - intros Hx. apply list_elem_of_fmap in Hx as (t & -> & Ht).
    apply list_elem_of_filter in Ht as [Hb Ht]. by apply Hcov'.
Qed.

(** Three disallowed literals, two of which differ only in case: two
    diagnostics. *)
Lemma one_hex_diagnostic_per_lowercased_literal_witness :
  exists kept named : list str,
    @validate_colors ascii_tables (u "a { color: #ABC; background: #abc; fill: #aabbcc }")
      demo_tokens
    = Ok (@functional_errors ascii_tables
            (u "a { color: #ABC; background: #abc; fill: #aabbcc }")
            (u "#6366f1") (u "#f1f5f9")
          ++ ((fun t => hex_msg t (u "#6366f1") (u "#f1f5f9")) <$> kept) ++ named)
    /\ length kept = 2%nat.
Proof.
  destruct (@one_hex_diagnostic_per_lowercased_literal ascii_tables
              (u "a { color: #ABC; background: #abc; fill: #aabbcc }") demo_tokens
              (u "#6366f1") (u "#f1f5f9"))
    as (kept & named & Hv & _ & _ & _ & _ & Hlen).
  - vm_compute. reflexivity.
  - vm_compute. reflexivity.
  - exists kept, named. split; [exact Hv|].
    rewrite Hlen. vm_compute. reflexivity.
Defined.

(** C5 fails on a source that holds both "#ABC" and "#abc": the two raw
    texts differ and both are disallowed, and one diagnostic is returned,
    for the first of them. *)
Lemma same_literal_in_two_cases_reported_once :
  @hex_literals ascii_tables (u "a { color: #ABC; background: #abc }") = [u "#ABC"; u "#abc"]
  /\ bool_decide (@disallowed ascii_tables (u "#6366f1") (u "#f1f5f9") (u "#ABC")) = true
  /\ bool_decide (@disallowed ascii_tables (u "#6366f1") (u "#f1f5f9") (u "#abc")) = true
  /\ @validate_colors ascii_tables (u "a { color: #ABC; background: #abc }") demo_tokens
     = Ok [hex_msg (u "#ABC") (u "#6366f1") (u "#f1f5f9")].
Proof. vm_compute. repeat split; reflexivity. Qed.

(** * Further properties of the code *)

(** ** The scanner, branch by branch *)

Lemma scan_cons (ch : char) (rest : str) (st : scan_state) :
  scan (ch :: rest) st
  = if ch =? LF then scan rest (set_line st (line st + 1))
    else if is_quote ch then
      in_string (fun t l => scan t (set_line st l)) ch rest (line st)
    else
      match rest with
      | d :: rest2 =>
        if (ch =? SLASH) && (d =? SLASH) then
          in_line_comment (fun t => scan t st) rest
        else if (ch =? SLASH) && (d =? STAR) then
          in_block_comment (fun t l => scan t (set_line st l)) rest2 (line st)
        else
          st' <- bracket_step ch st ;; scan rest st'
      | [] =>
        st' <- bracket_step ch st ;; scan rest st'
      end.
Proof. reflexivity. Qed.

Lemma in_string_cons {A} (k : str -> N -> A) (quote c : char) (t1 : str) (l : N) :
  in_string k quote (c :: t1) l
  = let l := if c =? LF then l + 1 else l in
    match t1 with
    | _ :: t2 =>
      if c =? BACKSLASH then in_string k quote t2 l
      else if c =? quote then k t1 l
      else in_string k quote t1 l
    | [] => if c =? quote then k t1 l else in_string k quote t1 l
    end.
Proof. reflexivity. Qed.

Lemma opener_pair_cases (o c : char) :
  dict_get openers o = Some c ->
  (o = c_of "(" /\ c = c_of ")") \/ (o = c_of "{" /\ c = c_of "}")
  \/ (o = c_of "[" /\ c = c_of "]").
Proof.
  unfold openers, dict_get.
  destruct (N.eqb_spec (c_of "(") o); [intros [= <-]; auto|].
  destruct (N.eqb_spec (c_of "{") o); [intros [= <-]; auto|].
  destruct (N.eqb_spec (c_of "[") o); [intros [= <-]; auto|].
  discriminate.
Qed.

Lemma scan_opener (o c : char) (rest : str) (st : scan_state) :
  dict_get openers o = Some c ->
  scan (o :: rest) st = scan rest (push st (o, line st)).
Proof.
  intros Ho.
  destruct (opener_pair_cases _ _ Ho) as [[-> _] | [[-> _] | [-> _]]];
    destruct rest; reflexivity.
Qed.

Lemma scan_matching_closer (o c : char) (l : N) (stk : list (char * N)) (rest : str)
  (st : scan_state) :
  dict_get openers o = Some c ->
  stack st = stk ++ [(o, l)] ->
  scan (c :: rest) st
  = scan rest {| stack := stk; line := line st; syntax_errors := syntax_errors st |}.
Proof.
  intros Ho Hstk.
  assert (Hstep : bracket_step c st
                  = Ok {| stack := stk; line := line st; syntax_errors := syntax_errors st |}).
  { destruct (opener_pair_cases _ _ Ho) as [[-> ->] | [[-> ->] | [-> ->]]];
      unfold bracket_step; simpl dict_get; rewrite Hstk, last_snoc; simpl;
      unfold pop; rewrite Hstk, removelast_last; reflexivity. }
  destruct (opener_pair_cases _ _ Ho) as [[_ ->] | [[_ ->] | [_ ->]]];
    (erewrite scan_closer by reflexivity); rewrite Hstep; reflexivity.
Qed.

Lemma scan_plain (c : char) (rest : str) (st : scan_state) :
  plain_char c = true ->
  scan (c :: rest) st
  = scan rest (set_line st (line st + (if c =? LF then 1 else 0))).
Proof.
  unfold plain_char. intros Hc.
  apply andb_true_iff in Hc as [Hc Hcl]. apply andb_true_iff in Hc as [Hc Hop].
  apply andb_true_iff in Hc as [Hq Hs].
  apply negb_true_iff in Hq, Hs, Hop, Hcl.
  rewrite scan_cons. destruct (c =? LF); [reflexivity|].
  rewrite Hq, Hs. cbn [andb].
  assert (Hstep : bracket_step c st = Ok st).
  { unfold bracket_step.
    destruct (dict_get openers c); [discriminate|].
    destruct (dict_get closers c); [discriminate|]. reflexivity. }
  rewrite Hstep. cbn [bind].
  assert (Hst : set_line st (line st + 0) = st)
    by (destruct st; unfold set_line; simpl; by rewrite N.add_0_r).
  rewrite Hst. by destruct rest.
Qed.

Lemma scan_balanced (s : str) :
  balanced s ->
  forall rest st, scan (s ++ rest) st = scan rest (set_line st (line st + newlines s)).
Proof.
  induction 1 as [| c s Hc _ IH | o c s t Ho _ IHs _ IHt]; intros rest st.
  - destruct st; unfold set_line, newlines; simpl. by rewrite N.add_0_r.
  - simpl app. rewrite (scan_plain _ _ _ Hc), IH, newlines_cons.
    unfold set_line; simpl. by rewrite N.add_assoc.
  - simpl app. rewrite <- app_assoc. simpl app.
    rewrite (scan_opener _ _ _ _ Ho), IHs.
    erewrite (scan_matching_closer o c); [|exact Ho|simpl; reflexivity].
    rewrite IHt. rewrite newlines_cons, newlines_app, newlines_cons.
    destruct (opener_pair_cases _ _ Ho) as [[-> ->] | [[-> ->] | [-> ->]]];
      unfold set_line; simpl; f_equal; f_equal; lia.
Qed.


(** X1. A text of plain characters and properly nested bracket pairs is
    passed without a trace: wherever it stands, the scan goes on behind it
    with the same stack and the same errors, the line counter advanced by
    its newlines; alone, it has no syntax error. *)
Theorem balanced_text_has_no_syntax_error (s : str) :
  balanced s ->
  validate_syntax s = Ok []
  /\ forall rest st, scan (s ++ rest) st = scan rest (set_line st (line st + newlines s)).
Proof.
  intros Hs. split; [|by apply scan_balanced].
  unfold validate_syntax.
  rewrite <- (app_nil_r s), (scan_balanced s Hs). reflexivity.
Qed.

Lemma balanced_text_has_no_syntax_error_witness :
  validate_syntax (u "f(a[1]) {" ++ [LF] ++ u "}") = Ok [].
Proof.
  apply balanced_text_has_no_syntax_error.
  apply balanced_plain; [reflexivity|].
  apply (balanced_pair (c_of "(") (c_of ")") (u "a[1]") (u " {" ++ [LF] ++ u "}"));
    [reflexivity| |].
  - apply balanced_plain; [reflexivity|].
    apply (balanced_pair (c_of "[") (c_of "]") (u "1") []); [reflexivity| |constructor].
    apply balanced_plain; [reflexivity | constructor].
  - apply balanced_plain; [reflexivity|].
    apply (balanced_pair (c_of "{") (c_of "}") [LF] []); [reflexivity| |constructor].
    apply balanced_plain; [reflexivity | constructor].
Defined.

(** X2. A closing bracket read in code while the stack is empty adds
    exactly one "Unexpected" SYNTAX_ERROR citing the current line, leaves
    the stack empty, and the scan goes on with the next character. *)
Theorem unexpected_closer_is_reported_and_skipped
  (ch expected : char) (rest : str) (st : scan_state) :
  dict_get closers ch = Some expected ->
  stack st = [] ->
  exists name,
    dict_get bracket_names ch = Some name
    /\ scan (ch :: rest) st
       = scan rest {| stack := []; line := line st;
                      syntax_errors := syntax_errors st
                        ++ [unexpected_msg name (line st) ch] |}.
Proof.
  intros Hcl Hstk.
  assert (Hstep : forall name,
             dict_get bracket_names ch = Some name -> dict_get openers ch = None ->
             bracket_step ch st
             = Ok {| stack := []; line := line st;
                     syntax_errors := syntax_errors st ++ [unexpected_msg name (line st) ch] |}).
  { intros name Hname Hop. unfold bracket_step, getitem.
    rewrite Hop, Hcl, Hstk, Hname. cbn [last bind]. unfold report_error.
    rewrite Hstk. reflexivity. }
  erewrite scan_closer by exact Hcl.
  destruct (closer_cases _ _ Hcl) as [[-> _] | [[-> _] | [-> _]]];
    eexists; (split; [reflexivity|]);
    (erewrite Hstep; [reflexivity | reflexivity..]).
Qed.

Lemma unexpected_closer_is_reported_and_skipped_witness :
  exists name,
    dict_get bracket_names (c_of "}") = Some name
    /\ scan (u "}") scan_init
       = scan [] {| stack := []; line := 1;
                    syntax_errors := [unexpected_msg name 1 (c_of "}")] |}.
Proof.
  apply (unexpected_closer_is_reported_and_skipped (c_of "}") (c_of "{") [] scan_init);
    reflexivity.
Defined.

(** ** Skipped regions *)

Lemma quote_cases (q : char) :
  is_quote q = true -> q <> LF /\ q <> BACKSLASH /\ q <> SLASH.
Proof.
  unfold is_quote. intros Hq.
  apply orb_true_iff in Hq as [Hq | Hq]; [apply orb_true_iff in Hq as [Hq | Hq]|];
    apply N.eqb_eq in Hq as ->; repeat split; discriminate.
Qed.

Lemma in_string_body {A} (k : str -> N -> A) (q : char) (rest : str) :
  q <> LF -> q <> BACKSLASH ->
  forall body, string_body q body ->
  forall l, exists l',
    l <= l' <= l + newlines body
    /\ in_string k q (body ++ q :: rest) l = k rest l'.
Proof.
  intros Hlf Hbs. induction 1 as [| c s Hcq Hcb _ IH | c s _ IH]; intros l.
  - exists l. split; [unfold newlines; simpl; lia|].
    simpl app. rewrite in_string_cons.
    destruct (N.eqb_spec q LF); [done|]. destruct (N.eqb_spec q BACKSLASH); [done|].
    cbn zeta. rewrite N.eqb_refl. by destruct rest.
  - simpl app. rewrite in_string_cons. cbn zeta.
    destruct (N.eqb_spec c BACKSLASH); [done|]. destruct (N.eqb_spec c q); [done|].
    destruct (IH (if c =? LF then l + 1 else l)) as (l' & Hl' & ->).
    exists l'. split.
    + rewrite newlines_cons. destruct (c =? LF); lia.
    + by destruct (s ++ q :: rest).
  - change ((BACKSLASH :: c :: s) ++ q :: rest) with (BACKSLASH :: c :: (s ++ q :: rest)).
    rewrite in_string_cons. cbn zeta.
    change (BACKSLASH =? LF) with false. rewrite N.eqb_refl.
    destruct (IH l) as (l' & Hl' & ->).
    exists l'. split; [|reflexivity].
    rewrite !newlines_cons. change (BACKSLASH =? LF) with false. destruct (c =? LF); lia.
Qed.

(** The same loop on a literal that is never closed: the input is used up. *)
Lemma in_string_open {A} (k : str -> N -> A) (q : char) :
  forall body, string_body q body ->
  forall l, exists l',
    l <= l' <= l + newlines body
    /\ in_string k q body l = k [] l'.
Proof.
  induction 1 as [| c s Hcq Hcb _ IH | c s _ IH]; intros l.
  - exists l. split; [unfold newlines; simpl; lia | reflexivity].
  - rewrite in_string_cons. cbn zeta.
    destruct (N.eqb_spec c BACKSLASH); [done|]. destruct (N.eqb_spec c q); [done|].
    destruct (IH (if c =? LF then l + 1 else l)) as (l' & Hl' & ->).
    exists l'. split.
    + rewrite newlines_cons. destruct (c =? LF); lia.
    + by destruct s.
  - rewrite in_string_cons. cbn zeta.
    change (BACKSLASH =? LF) with false. rewrite N.eqb_refl.
    destruct (IH l) as (l' & Hl' & ->).
    exists l'. split; [|reflexivity].
    rewrite !newlines_cons. change (BACKSLASH =? LF) with false. destruct (c =? LF); lia.
Qed.

(** X3. A string literal is skipped whole, escaped quotes included: after
    the opening quote, the body and the closing quote, the scan goes on
    with the stack and the errors it had, whatever brackets the body holds;
    the line counter has advanced by at most the newlines of the body. *)
Theorem string_literal_is_skipped (q : char) (body rest : str) (st : scan_state) :
  is_quote q = true ->
  string_body q body ->
  exists l,
    line st <= l <= line st + newlines body
    /\ scan (q :: body ++ q :: rest) st = scan rest (set_line st l).
Proof.
  intros Hq Hbody. destruct (quote_cases q Hq) as (Hlf & Hbs & _).
  rewrite scan_cons. destruct (N.eqb_spec q LF); [done|]. rewrite Hq.
  apply (in_string_body (fun t l => scan t (set_line st l)) q rest Hlf Hbs body Hbody).
Qed.

Lemma string_literal_is_skipped_witness :
  exists l,
    1 <= l <= 1 + newlines (u "){\'")
    /\ scan (c_of "'" :: u "){\'" ++ c_of "'" :: u ";") scan_init
       = scan (u ";") (set_line scan_init l).
Proof.
  apply (string_literal_is_skipped (c_of "'") (u "){\'") (u ";") scan_init); [reflexivity|].
  apply string_body_char; [discriminate..|].
  apply string_body_char; [discriminate..|].
  apply string_body_escape. constructor.
Defined.

(** X4. A string literal that is never closed swallows the rest of the
    source: the scan ends in the stack and the errors it had at the opening
    quote, so no bracket behind that quote is ever reported. *)
Theorem unterminated_string_swallows_the_rest (q : char) (body : str) (st : scan_state) :
  is_quote q = true ->
  string_body q body ->
  exists l,
    line st <= l <= line st + newlines body
    /\ scan (q :: body) st = Ok (set_line st l).
Proof.
  intros Hq Hbody. destruct (quote_cases q Hq) as (Hlf & _).
  rewrite scan_cons. destruct (N.eqb_spec q LF); [done|]. rewrite Hq.
  apply (in_string_open (fun t l => scan t (set_line st l)) q body Hbody).
Qed.

Lemma unterminated_string_swallows_the_rest_witness :
  validate_syntax (c_of "`" :: u "a ) ] {") = Ok [].
Proof.
  destruct (unterminated_string_swallows_the_rest (c_of "`") (u "a ) ] {") scan_init)
    as (l & _ & Hscan); [reflexivity | repeat (apply string_body_char; [discriminate..|]);
                                        constructor |].
  unfold validate_syntax. rewrite Hscan. reflexivity.
Defined.

Lemma in_line_comment_skip {A} (k : str -> A) (rest : str) :
  (rest = [] \/ exists r, rest = LF :: r) ->
  forall body, LF ∉ body -> in_line_comment k (body ++ rest) = k rest.
Proof.
  intros Hrest. induction body as [|c body IH]; intros Hb.
  - destruct Hrest as [-> | [r ->]]; reflexivity.
  - apply not_elem_of_cons in Hb as [Hc Hb]. simpl.
    destruct (N.eqb_spec c LF); [done|]. by apply IH.
Qed.

(** X5. A [//] comment is skipped up to the end of its line: the scan goes
    on at the newline (or at the end of the source) in the state it had,
    whatever brackets and quotes the comment holds. *)
Theorem line_comment_is_skipped (body rest : str) (st : scan_state) :
  LF ∉ body ->
  rest = [] \/ (exists r, rest = LF :: r) ->
  scan (SLASH :: SLASH :: body ++ rest) st = scan rest st.
Proof.
  intros Hb Hrest. rewrite scan_cons.
  change (SLASH =? LF) with false. change (is_quote SLASH) with false.
  cbn [andb]. rewrite !N.eqb_refl. cbn [andb].
  change (SLASH :: body ++ rest) with ((SLASH :: body) ++ rest).
  apply (in_line_comment_skip (fun t => scan t st) rest Hrest).
  apply not_elem_of_cons. split; [discriminate | exact Hb].
Qed.

Lemma line_comment_is_skipped_witness :
  scan (SLASH :: SLASH :: u " ) ' (" ++ LF :: u "x") scan_init = scan (LF :: u "x") scan_init.
Proof.
  apply line_comment_is_skipped; [|right; eauto].
  vm_compute. intros Hin. repeat (apply elem_of_cons in Hin as [Hin | Hin]; [discriminate|]).
  inversion Hin.
Defined.

Lemma in_block_comment_cons {A} (k : str -> N -> A) (c : char) (t1 : str) (l : N) :
  in_block_comment k (c :: t1) l
  = match t1 with
    | [] => k (c :: t1) l
    | d :: t2 =>
      let l := if c =? LF then l + 1 else l in
      if (c =? STAR) && (d =? SLASH) then k t2 l else in_block_comment k t1 l
    end.
Proof. by destruct t1. Qed.

Lemma in_block_comment_skip {A} (k : str -> N -> A) (rest : str) :
  forall body l,
    contains (body ++ [STAR]) [STAR; SLASH] = false ->
    in_block_comment k (body ++ STAR :: SLASH :: rest) l = k rest (l + newlines body).
Proof.
  induction body as [|c body IH]; intros l Hb.
  - simpl. unfold newlines. simpl. by rewrite N.add_0_r.
  - simpl in Hb. apply orb_false_iff in Hb as [Hhead Htail].
    simpl app. rewrite in_block_comment_cons.
    destruct (body ++ STAR :: SLASH :: rest) as [|d t2] eqn:E.
    { by destruct body. }
    cbn zeta.
    assert (Hd : (c =? STAR) && (d =? SLASH) = false).
    { destruct (N.eqb_spec c STAR) as [-> | _]; [|reflexivity]. simpl.
      destruct body as [|d' body']; simpl in E; injection E as <- _; [reflexivity|].
      destruct (N.eqb_spec d' SLASH) as [-> | _]; [|reflexivity].
      destruct body'; simpl in Hhead; discriminate. }
    rewrite Hd, IH by exact Htail. rewrite newlines_cons.
    destruct (c =? LF); f_equal; lia.
Qed.

(** X6. A block comment is skipped up to its first closing mark: the scan
    goes on behind it with the stack and the errors it had, and every
    newline of the comment is counted. *)
Theorem block_comment_is_skipped (body rest : str) (st : scan_state) :
  contains (body ++ [STAR]) [STAR; SLASH] = false ->
  scan (SLASH :: STAR :: body ++ STAR :: SLASH :: rest) st
  = scan rest (set_line st (line st + newlines body)).
Proof.
  intros Hb. rewrite scan_cons.
  change (SLASH =? LF) with false. change (is_quote SLASH) with false.
  change ((SLASH =? SLASH) && (STAR =? SLASH)) with false.
  change ((SLASH =? SLASH) && (STAR =? STAR)) with true. cbv iota.
  apply (in_block_comment_skip (fun t l => scan t (set_line st l)) rest body (line st) Hb).
Qed.

Lemma block_comment_is_skipped_witness :
  scan (SLASH :: STAR :: (u " ) " ++ [LF] ++ u " ' *") ++ STAR :: SLASH :: u "]") scan_init
  = scan (u "]") (set_line scan_init (1 + 1)).
Proof.
  apply (block_comment_is_skipped (u " ) " ++ [LF] ++ u " ' *") (u "]") scan_init).
  vm_compute. reflexivity.
Defined.

Lemma startswith_nil (s : str) : startswith s [] = true.
Proof. by destruct s. Qed.

Lemma startswith_two (a b x y : char) (t : str) :
  startswith (a :: b :: t) [x; y] = (x =? a) && (y =? b).
Proof. simpl. by rewrite startswith_nil, andb_true_r. Qed.

Lemma contains_cons (c : char) (hay needle : str) :
  contains (c :: hay) needle = startswith (c :: hay) needle || contains hay needle.
Proof. reflexivity. Qed.

Lemma in_block_comment_open {A} (k : str -> N -> A) (c : char) :
  forall body l,
    contains (body ++ [c]) [STAR; SLASH] = false ->
    in_block_comment k (body ++ [c]) l = k [c] (l + newlines body).
Proof.
  induction body as [|c0 body IH]; intros l Hb.
  - simpl. unfold newlines. simpl. by rewrite N.add_0_r.
  - change ((c0 :: body) ++ [c]) with (c0 :: (body ++ [c])) in *.
    rewrite contains_cons in Hb. apply orb_false_iff in Hb as [Hhead Htail].
    rewrite in_block_comment_cons.
    destruct (body ++ [c]) as [|d t2] eqn:E.
    { by destruct body. }
    cbn zeta. rewrite startswith_two in Hhead.
    rewrite (N.eqb_sym c0 STAR), (N.eqb_sym d SLASH), Hhead.
    rewrite IH by exact Htail. rewrite newlines_cons.
    destruct (c0 =? LF); f_equal; lia.
Qed.

(** X7. A block comment that is never closed does not swallow the whole
    rest: its loop stops one character before the end of the source, and
    that last character is scanned as code, with every newline of the
    comment counted. *)
Theorem unterminated_block_comment_leaves_last_character
  (body : str) (c : char) (st : scan_state) :
  contains (body ++ [c]) [STAR; SLASH] = false ->
  scan (SLASH :: STAR :: body ++ [c]) st
  = scan [c] (set_line st (line st + newlines body)).
Proof.
  intros Hb. rewrite scan_cons.
  change (SLASH =? LF) with false. change (is_quote SLASH) with false.
  change ((SLASH =? SLASH) && (STAR =? SLASH)) with false.
  change ((SLASH =? SLASH) && (STAR =? STAR)) with true. cbv iota.
  apply (in_block_comment_open (fun t l => scan t (set_line st l)) c body (line st) Hb).
Qed.

(** An opening parenthesis at the very end of an unclosed comment is
    reported as unclosed. *)
Lemma unterminated_block_comment_leaves_last_character_witness :
  scan (SLASH :: STAR :: u " x " ++ [c_of "("]) scan_init
  = scan [c_of "("] (set_line scan_init (1 + newlines (u " x ")))
  /\ validate_syntax (u "/* x (")
     = Ok [unclosed_msg (u "opening parenthesis '('") 1 (c_of ")")].
Proof.
  split; [|vm_compute; reflexivity].
  apply (unterminated_block_comment_leaves_last_character (u " x ") (c_of "(") scan_init).
  vm_compute. reflexivity.
Defined.

(** ** The whole pass *)

Lemma in_string_suffix {A} (P : A -> Prop) (k : str -> N -> A) (quote : char) :
  forall (n : nat) (t : str) (l : N),
    (length t <= n)%nat ->
    (forall t' l', t' `suffix_of` t -> P (k t' l')) ->
    P (in_string k quote t l).
Proof.
  induction n as [|n IH]; intros t l Hn Hk.
  - destruct t; [by apply Hk | simpl in Hn; lia].
  - destruct t as [|c t1]; [by apply Hk|].
    rewrite in_string_cons. cbn zeta. simpl in Hn.
    assert (H1 : forall l0, P (in_string k quote t1 l0)).
    { intros l0. apply IH; [lia|]. intros t' l' Ht'. apply Hk. by apply suffix_cons_r. }
    assert (H0 : forall l0, P (k t1 l0)).
    { intros l0. apply Hk. by apply suffix_cons_r. }
    destruct t1 as [|d t2]; [destruct (c =? quote); auto|].
    destruct (c =? BACKSLASH); [|destruct (c =? quote); auto].
    apply IH; [simpl in Hn; lia|]. intros t' l' Ht'. apply Hk.
    by do 2 apply suffix_cons_r.
Qed.

Lemma in_line_comment_suffix {A} (P : A -> Prop) (k : str -> A) :
  forall (t : str),
    (forall t', t' `suffix_of` t -> P (k t')) ->
    P (in_line_comment k t).
Proof.
  induction t as [|c t1 IH]; intros Hk; [by apply Hk|].
  simpl. destruct (c =? LF); [by apply Hk|].
  apply IH. intros t' Ht'. apply Hk. by apply suffix_cons_r.
Qed.

Lemma in_block_comment_suffix {A} (P : A -> Prop) (k : str -> N -> A) :
  forall (t : str) (l : N),
    (forall t' l', t' `suffix_of` t -> P (k t' l')) ->
    P (in_block_comment k t l).
Proof.
  induction t as [|c t1 IH]; intros l Hk; [by apply Hk|].
  rewrite in_block_comment_cons. destruct t1 as [|d t2]; [by apply Hk|].
  cbn zeta. destruct ((c =? STAR) && (d =? SLASH)).
  - apply Hk. by do 2 apply suffix_cons_r.
  - apply IH. intros t' l' Ht'. apply Hk. by apply suffix_cons_r.
Qed.

(** An invariant kept by the bracket step on the characters of the source
    is kept by the whole pass. *)
Lemma scan_invariant_on (good : char -> Prop) (I : scan_state -> Prop) :
  (forall st l, I st -> I (set_line st l)) ->
  (forall ch st, good ch -> I st -> exists st', bracket_step ch st = Ok st' /\ I st') ->
  forall s st, Forall good s -> I st -> exists st', scan s st = Ok st' /\ I st'.
Proof.
  intros Hline Hstep s.
  remember (length s) as n eqn:Hn.
  revert s Hn. induction n as [n IH] using lt_wf_ind. intros s Hn st Hgood HI.
  destruct s as [|ch rest]; [simpl; eauto|].
  apply Forall_cons in Hgood as [Hch Hrest].
  assert (Hrec : forall t st', t `suffix_of` rest -> I st' ->
                               exists st'', scan t st' = Ok st'' /\ I st'').
  { intros t st' [pre Ht] HI'. apply (IH (length t)); [|reflexivity| |exact HI'].
    - rewrite Hn, Ht. simpl. rewrite length_app. lia.
    - rewrite Ht in Hrest. apply Forall_app in Hrest. tauto. }
  assert (Hbr : exists st'', (st' <- bracket_step ch st ;; scan rest st') = Ok st'' /\ I st'').
  { destruct (Hstep ch st Hch HI) as (st1 & -> & HI1). simpl. by apply Hrec. }
  rewrite scan_cons. destruct (ch =? LF); [apply Hrec; auto|].
  destruct (is_quote ch).
  { apply in_string_suffix with (n := length rest); [lia|].
    intros t' l' Ht'. apply Hrec; auto. }
  destruct rest as [|d rest2]; [exact Hbr|].
  destruct ((ch =? SLASH) && (d =? SLASH)).
  { apply in_line_comment_suffix. intros t' Ht'. apply Hrec; auto. }
  destruct ((ch =? SLASH) && (d =? STAR)); [|exact Hbr].
  apply in_block_comment_suffix. intros t' l' Ht'. apply Hrec; [|auto].
  by apply suffix_cons_r.
Qed.

(** X8. A source that holds no bracket, brace or parenthesis has no
    syntax error, whatever its quotes and comments, closed or not. *)
Theorem text_without_brackets_has_no_syntax_error (code : str) :
  Forall (fun c => dict_get openers c = None /\ dict_get closers c = None) code ->
  validate_syntax code = Ok [].
Proof.
  intros Hcode.
  destruct (scan_invariant_on
              (fun c => dict_get openers c = None /\ dict_get closers c = None)
              (fun st => stack st = [] /\ syntax_errors st = []))
    with (s := code) (st := scan_init) as (st & Hscan & Hstk & Herr).
  - intros st l H. exact H.
  - intros ch st [Hop Hcl] H. exists st. split; [|exact H].
    unfold bracket_step. by rewrite Hop, Hcl.
  - exact Hcode.
  - by split.
  - unfold validate_syntax. rewrite Hscan. cbn [bind]. by rewrite Hstk, Herr.
Qed.

Lemma text_without_brackets_has_no_syntax_error_witness :
  validate_syntax (u "let s = 'it''s' /* open // and never closed") = Ok [].
Proof.
  apply text_without_brackets_has_no_syntax_error.
  vm_compute. repeat (constructor; [split; reflexivity|]). constructor.
Defined.

(** X9. On a source without backslashes the line counter ends at one plus
    the number of newlines of the source: newlines in code, in strings and
    in comments are all counted. *)
Theorem line_counter_counts_every_newline_without_backslash (code : str) :
  BACKSLASH ∉ code ->
  exists st, scan code scan_init = Ok st /\ line st = 1 + newlines code.
Proof.
  intros Hb. destruct (scan_counts_newlines code scan_init Hb) as (st & Hs & _ & Hl).
  { constructor. }
  exists st. split; [exact Hs | exact Hl].
Qed.

Lemma line_counter_counts_every_newline_without_backslash_witness :
  exists st,
    scan (u "a" ++ [LF] ++ u "'b" ++ [LF] ++ u "c' /* d" ++ [LF] ++ u "*/ // e" ++ [LF]) scan_init
    = Ok st
    /\ line st = 5.
Proof.
  destruct (line_counter_counts_every_newline_without_backslash
              (u "a" ++ [LF] ++ u "'b" ++ [LF] ++ u "c' /* d" ++ [LF] ++ u "*/ // e" ++ [LF]))
    as (st & Hs & Hl).
  - vm_compute. intros Hin.
    repeat (apply elem_of_cons in Hin as [Hin | Hin]; [discriminate|]). inversion Hin.
  - exists st. split; [exact Hs|]. rewrite Hl. vm_compute. reflexivity.
Defined.

(** ** The structural checker *)

Section StructureFacts.
Context `{PyUnicode}.

Lemma lstrip_keeps (c : char) (ws : str) :
  is_space c = false ->
  forall pre, exists pre', lstrip (pre ++ c :: ws) = pre' ++ c :: ws.
Proof.
  intros Hc. induction pre as [|x pre IH]; simpl.
  - exists []. by rewrite Hc.
  - destruct (is_space x); [exact IH | by exists (x :: pre)].
Qed.

Lemma lstrip_spaces (c : char) (t : str) :
  is_space c = false ->
  forall ws, Forall (fun x => is_space x = true) ws -> lstrip (ws ++ c :: t) = c :: t.
Proof.
  intros Hc. induction 1 as [|x ws Hx _ IH]; simpl; [by rewrite Hc | by rewrite Hx].
Qed.

Lemma lstrip_all_spaces (ws : str) :
  Forall (fun x => is_space x = true) ws -> lstrip ws = [].
Proof. induction 1 as [|x ws Hx _ IH]; simpl; [reflexivity | by rewrite Hx]. Qed.

(** [strip] takes the white space off both ends, and nothing else. *)
Lemma strip_last (pre ws : str) (c : char) :
  is_space c = false ->
  Forall (fun x => is_space x = true) ws ->
  last (strip (pre ++ c :: ws)) = Some c.
Proof.
  intros Hc Hws. unfold strip.
  destruct (lstrip_keeps c ws Hc pre) as [pre' ->].
  rewrite rev_app_distr. simpl rev. rewrite <- !app_assoc. simpl app.
  rewrite (lstrip_spaces c (rev pre') Hc) by (by apply List.Forall_rev).
  simpl rev. rewrite rev_involutive. apply last_snoc.
Qed.

Lemma strip_all_spaces (ws : str) :
  Forall (fun x => is_space x = true) ws -> strip ws = [].
Proof. intros Hws. unfold strip. by rewrite (lstrip_all_spaces ws Hws). Qed.

Ltac decide_by_computation :=
  lazymatch goal with
  | |- ~ ?P => apply (bool_decide_eq_false_1 P); vm_compute; reflexivity
  | |- ?P -> False => apply (bool_decide_eq_false_1 P); vm_compute; reflexivity
  | |- ?P => apply (bool_decide_eq_true_1 P); vm_compute; reflexivity
  end.

(** X10. The closing-brace check looks at the last character that is not
    white space: the "does not end with '}'" diagnostic is returned
    exactly when that character is not a closing brace, whatever white
    space follows it; and a source of white space only (or empty) never
    gets it. *)
Theorem truncation_check_ignores_trailing_space :
  (forall (pre ws : str) (c : char),
     is_space c = false ->
     Forall (fun x => is_space x = true) ws ->
     (truncated_msg ∈ validate_structure (pre ++ c :: ws) <-> c <> c_of "}"))
  /\ (forall ws : str,
        Forall (fun x => is_space x = true) ws ->
        truncated_msg ∉ validate_structure ws).
Proof.
  split.
  - intros pre ws c Hc Hws. unfold validate_structure.
    rewrite (strip_last pre ws c Hc Hws).
    destruct (N.eqb_spec c (c_of "}")) as [-> | Hne];
      destruct (negb (contains _ _));
      destruct (truthy (re_search false export_class_pattern _));
      try destruct (negb (existsb _ _)); cbn [negb app];
      (split; [intros Hin | intros Hneq]); try done;
      try (exfalso; revert Hin; decide_by_computation);
      decide_by_computation.
  - intros ws Hws. unfold validate_structure. rewrite (strip_all_spaces ws Hws).
    cbn [last].
    destruct (negb (contains _ _));
      destruct (truthy (re_search false export_class_pattern ws));
      try destruct (negb (existsb _ _)); cbn [negb app];
      decide_by_computation.
Qed.

(** X11. The structural checker returns at most three diagnostics, taken
    in this order from: missing decorator, missing 'export class',
    truncated body, empty class; the empty-class diagnostic is never
    returned together with the missing-class one. *)
Theorem structure_diagnostics_are_at_most_three (code : str) :
  validate_structure code
    `sublist_of` [no_decorator_msg; no_class_msg; truncated_msg; no_member_msg]
  /\ ~ (no_class_msg ∈ validate_structure code /\ no_member_msg ∈ validate_structure code)
  /\ (length (validate_structure code) <= 3)%nat.
Proof.
  unfold validate_structure.
  destruct (negb (contains _ _));
    destruct (truthy (re_search false export_class_pattern code));
    destruct (last _) as [c|]; try destruct (negb (c =? _));
    try destruct (negb (existsb _ _)); cbn [negb app];
    (split; [|split; [decide_by_computation | simpl; lia]]);
    repeat first [ apply sublist_nil_l | apply sublist_skip | apply sublist_cons ].
Qed.

End StructureFacts.

Lemma truncation_check_ignores_trailing_space_witness :
  truncated_msg ∈ @validate_structure ascii_tables (u "export class A { }" ++ [LF; LF])
  <-> c_of "}" <> c_of "}".
Proof.
  apply (proj1 (@truncation_check_ignores_trailing_space ascii_tables)
           (u "export class A { ") [LF; LF] (c_of "}")).
  - reflexivity.
  - repeat constructor.
Defined.

(** ** The token-presence checker *)

Lemma startswith_spec (p : str) :
  forall s, startswith s p = true <-> exists post, s = p ++ post.
Proof.
  induction p as [|a p IH]; intros s.
  - rewrite startswith_nil. split; [eauto | done].
  - destruct s as [|b s]; simpl.
    + split; [done | intros [post Hp]; discriminate].
    + rewrite andb_true_iff, N.eqb_eq, IH. split.
      * intros [-> [post ->]]. eauto.
      * intros [post [= -> ->]]. eauto.
Qed.

Lemma contains_unfold (hay needle : str) :
  contains hay needle
  = startswith hay needle || match hay with [] => false | _ :: hay' => contains hay' needle end.
Proof. by destruct hay. Qed.

(** [contains] is the substring test of Python's [in]. *)
Lemma contains_spec (needle : str) :
  forall hay, contains hay needle = true <-> occurs needle hay.
Proof.
  intros hay. split.
  - induction hay as [|c hay IH]; rewrite contains_unfold, orb_true_iff.
    + intros [Hs | Hf]; [|done]. apply startswith_spec in Hs as [post ->]. by exists [], post.
    + intros [Hs | Hc].
      * apply startswith_spec in Hs as [post ->]. by exists [], post.
      * destruct (IH Hc) as (pre & post & ->). by exists (c :: pre), post.
  - intros (pre & post & ->). induction pre as [|c pre IH].
    + rewrite contains_unfold. apply orb_true_iff. left. apply startswith_spec. eauto.
    + simpl app. rewrite contains_cons. apply orb_true_iff. by right.
Qed.

Section TokenFacts.
Context `{PyUnicode}.

(** X12. With the three tokens it reads in the token set, the
    token-presence checker returns no diagnostic exactly when the primary
    colour occurs in the source up to case (as [lower] has it), the border
    radius occurs verbatim, and the font family occurs up to case. *)
Theorem token_presence_passes_iff_all_occur
  (code : str) (tokens : gmap str str) (p r f : str) :
  tokens !! u "primary_color" = Some p ->
  tokens !! u "border_radius" = Some r ->
  tokens !! u "font_family" = Some f ->
  validate_design_tokens code tokens = Ok []
  <-> occurs (str_lower p) (str_lower code)
      /\ occurs r code
      /\ occurs (str_lower f) (str_lower code).
Proof.
  intros Hp Hr Hf. unfold validate_design_tokens, subscript.
  rewrite Hp, Hr, Hf. cbn [bind]. rewrite <- !contains_spec.
  destruct (contains (str_lower code) (str_lower p));
    destruct (contains code r);
    destruct (contains (str_lower code) (str_lower f)); cbn [negb app];
    split; try (intros [= ]; fail); try (intros (? & ? & ?); discriminate);
    try done.
Qed.

End TokenFacts.

Lemma token_presence_passes_iff_all_occur_witness :
  @validate_design_tokens ascii_tables demo_code demo_tokens = Ok []
  <-> occurs (@str_lower ascii_tables (u "#6366f1")) (@str_lower ascii_tables demo_code)
      /\ occurs (u "8px") demo_code
      /\ occurs (@str_lower ascii_tables (u "Inter")) (@str_lower ascii_tables demo_code).
Proof.
  apply (@token_presence_passes_iff_all_occur ascii_tables demo_code demo_tokens);
    vm_compute; reflexivity.
Defined.

(** ** The colour checker *)

Section ColourFacts.
Context `{PyUnicode}.

Lemma add_shorthands_superset (A : gset str) : A ⊆ add_shorthands A.
Proof.
  unfold add_shorthands.
  assert (G : forall (l : list str) (acc : gset str),
             acc ⊆ fold_left (fun acc h => match shorthand h with
                                           | Some a => acc ∪ {[ a ]}
                                           | None => acc
                                           end) l acc).
  { induction l as [|h l IH]; intros acc; simpl; [done|].
    etrans; [|apply IH]. destruct (shorthand h); set_solver. }
  apply G.
Qed.

(** X13. A hex literal whose normalised form is that of an approved value
    (either colour token lowercased, #ffffff, #fff, #000000 or #000) is
    never cited by an UNAUTHORISED_HEX_COLOR diagnostic: every literal
    cited is a literal of the source that differs, once normalised, from
    every approved value. *)
Theorem approved_values_are_never_reported
  (code : str) (tokens : gmap str str) (p s : str) :
  tokens !! u "primary_color" = Some p ->
  tokens !! u "secondary_color" = Some s ->
  exists kept named : list str,
    validate_colors code tokens
    = Ok (functional_errors code p s ++ ((fun t => hex_msg t p s) <$> kept) ++ named)
    /\ Forall (fun m => startswith m (u "UNAUTHORISED_NAMED_COLOR:") = true) named
    /\ Forall (fun t =>
                 t ∈ hex_literals code
                 /\ forall a,
                      a ∈ [str_lower p; str_lower s;
                           u "#ffffff"; u "#fff"; u "#000000"; u "#000"] ->
                      _normalise_hex (str_lower t) <> _normalise_hex a) kept.
Proof.
  intros Hp Hs.
  assert (Hp' : subscript tokens "primary_color" = Ok p) by (unfold subscript; by rewrite Hp).
  assert (Hs' : subscript tokens "secondary_color" = Ok s) by (unfold subscript; by rewrite Hs).
  destruct (validate_colors_eq code tokens p s Hp' Hs') as (named & Hv & Hnamed).
  destruct (hex_fold_spec p s (normalised_approved_for p s)
              (re_finditer false hex_pattern code) ∅)
    as (kept & E & Hsub & _).
  exists kept, named. unfold hex_errors in Hv. rewrite E in Hv.
  split; [exact Hv|]. split; [exact Hnamed|].
  apply Forall_forall. intros t Ht.
  apply (elem_of_sublist _ _ _ Ht) in Hsub.
  apply list_elem_of_filter in Hsub as [Hbad Hlit].
  split; [exact Hlit|]. intros a Ha Heq. apply Hbad. rewrite Heq.
  unfold normalised_approved_for. apply elem_of_map_2.
  apply add_shorthands_superset.
  rewrite !elem_of_cons, elem_of_nil in Ha.
  rewrite !elem_of_union, !elem_of_singleton. tauto.
Qed.

End ColourFacts.

(** At a text with the primary colour in capitals, the 3-digit white and
    one foreign colour. *)
Lemma approved_values_are_never_reported_witness :
  exists kept named : list str,
    @validate_colors ascii_tables
      (u "a { color: #6366F1; b: #FFF; c: #123456 }") demo_tokens
    = Ok (@functional_errors ascii_tables
            (u "a { color: #6366F1; b: #FFF; c: #123456 }")
            (u "#6366f1") (u "#f1f5f9")
          ++ ((fun t => hex_msg t (u "#6366f1") (u "#f1f5f9")) <$> kept) ++ named)
    /\ Forall (fun m => startswith m (u "UNAUTHORISED_NAMED_COLOR:") = true) named
    /\ Forall (fun t =>
                 t ∈ @hex_literals ascii_tables
                       (u "a { color: #6366F1; b: #FFF; c: #123456 }")
                 /\ forall a,
                      a ∈ [@str_lower ascii_tables (u "#6366f1");
                           @str_lower ascii_tables (u "#f1f5f9");
                           u "#ffffff"; u "#fff"; u "#000000"; u "#000"] ->
                      @_normalise_hex ascii_tables (@str_lower ascii_tables t)
                      <> @_normalise_hex ascii_tables a) kept.
Proof.
  apply (@approved_values_are_never_reported ascii_tables
           (u "a { color: #6366F1; b: #FFF; c: #123456 }") demo_tokens
           (u "#6366f1") (u "#f1f5f9")); vm_compute; reflexivity.
Defined.

(** ** The aggregated report and the token set *)

Section ComponentFacts.
Context `{PyUnicode}.

Lemma subscript_agree (keys : list string) (tokens tokens' : gmap str str) (key : string) :
  agree_on keys tokens tokens' -> In key keys ->
  subscript tokens key = subscript tokens' key.
Proof.
  intros Ha Hin. unfold subscript.
  rewrite (proj1 (List.Forall_forall _ _) Ha key Hin). reflexivity.
Qed.

Lemma validate_design_tokens_agree (code : str) (tokens tokens' : gmap str str) :
  agree_on ["primary_color"; "border_radius"; "font_family"]%string tokens tokens' ->
  validate_design_tokens code tokens = validate_design_tokens code tokens'.
Proof.
  intros Ha. unfold validate_design_tokens.
  rewrite !(subscript_agree _ tokens tokens' _ Ha) by (simpl; tauto). reflexivity.
Qed.

Lemma validate_colors_agree (code : str) (tokens tokens' : gmap str str) :
  agree_on ["primary_color"; "secondary_color"]%string tokens tokens' ->
  validate_colors code tokens = validate_colors code tokens'.
Proof.
  intros Ha. unfold validate_colors.
  rewrite !(subscript_agree _ tokens tokens' _ Ha) by (simpl; tauto). reflexivity.
Qed.

Lemma agree_on_sub (keys keys' : list string) (tokens tokens' : gmap str str) :
  agree_on keys tokens tokens' -> incl keys' keys -> agree_on keys' tokens tokens'.
Proof.
  unfold agree_on. rewrite !List.Forall_forall. intros Ha Hi k Hk. apply Ha, Hi, Hk.
Qed.

(** X14. The whole report, or the exception raised, is a function of the
    source text and of the values held under primary_color,
    secondary_color, border_radius, font_family and spacing: any other key
    of the token set, present or not, changes nothing. *)
Theorem only_the_five_token_keys_are_read
  (code : str) (tokens tokens' : gmap str str) :
  agree_on ["primary_color"; "secondary_color"; "border_radius";
            "font_family"; "spacing"]%string tokens tokens' ->
  validate_component code tokens = validate_component code tokens'.
Proof.
  intros Ha. unfold validate_component.
  rewrite (validate_design_tokens_agree code tokens tokens')
    by (apply (agree_on_sub _ _ _ _ Ha); intros k; simpl; tauto).
  rewrite (validate_colors_agree code tokens tokens')
    by (apply (agree_on_sub _ _ _ _ Ha); intros k; simpl; tauto).
  unfold _warn_spacing_token, get_default.
  rewrite (proj1 (List.Forall_forall _ _) Ha "spacing"%string) by (simpl; tauto).
  reflexivity.
Qed.

(** X15. The spacing token has no part in the verdict: two token sets
    that agree on the four other keys give the same errors and the same
    is_valid, or raise the same exception; only the warnings can differ. *)
Theorem spacing_does_not_change_the_verdict
  (code : str) (tokens tokens' : gmap str str) :
  agree_on ["primary_color"; "secondary_color"; "border_radius";
            "font_family"]%string tokens tokens' ->
  match validate_component code tokens, validate_component code tokens' with
  | Ok r, Ok r' => errors r = errors r' /\ is_valid r = is_valid r'
  | Raise e, Raise e' => e = e'
  | _, _ => False
  end.
Proof.
  intros Ha. unfold validate_component.
  rewrite (validate_design_tokens_agree code tokens tokens')
    by (apply (agree_on_sub _ _ _ _ Ha); intros k; simpl; tauto).
  rewrite (validate_colors_agree code tokens tokens')
    by (apply (agree_on_sub _ _ _ _ Ha); intros k; simpl; tauto).
  destruct (validate_design_tokens code tokens') as [e1|x1]; [|reflexivity].
  destruct (validate_colors code tokens') as [e2|x2]; [|reflexivity].
  destruct (validate_syntax code) as [e3|x3]; [|reflexivity].
  split; reflexivity.
Qed.

End ComponentFacts.

(** A token set with a sixth key gives the report of the five-key set. *)
Lemma only_the_five_token_keys_are_read_witness :
  @validate_component ascii_tables demo_code demo_tokens
  = @validate_component ascii_tables demo_code (<[ u "shadow" := u "none" ]> demo_tokens).
Proof.
  apply (@only_the_five_token_keys_are_read ascii_tables).
  repeat constructor.
Defined.

(** With and without the spacing token. *)
Lemma spacing_does_not_change_the_verdict_witness :
  match @validate_component ascii_tables demo_code demo_tokens,
        @validate_component ascii_tables demo_code (delete (u "spacing") demo_tokens) with
  | Ok r, Ok r' => errors r = errors r' /\ is_valid r = is_valid r'
  | Raise e, Raise e' => e = e'
  | _, _ => False
  end.
Proof.
  apply (@spacing_does_not_change_the_verdict ascii_tables).
  repeat constructor.
Defined.

(** ** The self-correcting loop *)

Lemma then_call {X B} (a : action X) (k : X -> prog B) : then_ (call a) k = Do a k.
Proof. reflexivity. Qed.

Lemma calls_app (tr tr' : list event) : calls (tr ++ tr') = calls tr ++ calls tr'.
Proof. apply filter_app. Qed.

Lemma calls_of_prints (tr : list event) :
  Forall (fun e => is_stderr e = true) tr -> calls tr = [].
Proof.
  induction 1 as [|e tr He _ IH]; [reflexivity|].
  unfold calls. rewrite filter_cons_False by (rewrite He; discriminate). exact IH.
Qed.

Lemma calls_of_quiet (tr : list event) :
  Forall (fun e => is_stderr e = false) tr -> calls tr = tr.
Proof.
  induction 1 as [|e tr He _ IH]; [reflexivity|].
  unfold calls. rewrite filter_cons_True by exact He. f_equal. exact IH.
Qed.

Lemma regenerations_of_calls (tr : list event) :
  regenerations (calls tr) = regenerations tr.
Proof.
  unfold regenerations, calls. induction tr as [|e tr IH]; [reflexivity|].
  destruct e; simpl;
    rewrite ?filter_cons_True, ?filter_cons_False by (simpl; congruence);
    simpl; rewrite ?filter_cons_True, ?filter_cons_False by (simpl; congruence);
    simpl; rewrite ?IH; reflexivity.
Qed.

Section LoopFacts.
Context `{PyUnicode} `{PyPrintable}.
Variables (world failure : Type).
Variable outside : forall X, action X -> world -> (failure + X) * world.

Lemma run_then {A B} (p : prog A) (k : A -> prog B) (w : world) :
  run outside (then_ p k) w
  = match run outside p w with
    | (Returned a, tr, w') =>
        let '(o, tr', w'') := run outside (k a) w' in (o, tr ++ tr', w'')
    | (Raised e, tr, w') => (Raised e, tr, w')
    | (Failed f, tr, w') => (Failed f, tr, w')
    end.
Proof.
  revert w. induction p as [a|e|X a k' IH]; intros w; simpl.
  - destruct (run outside (k a) w) as [[o tr] w']. reflexivity.
  - reflexivity.
  - destruct (outside X a w) as [[f|x] w']; [reflexivity|]. rewrite IH.
    destruct (run outside (k' x) w') as [[[a'|e|f] tr] w'']; try reflexivity.
    destruct (run outside (k a') w'') as [[o tr'] w3]. reflexivity.
Qed.

Lemma sat_mono {A} (p : prog A) (Q Q' : list event -> outcome failure A -> Prop) :
  sat outside p Q -> (forall tr o, Q tr o -> Q' tr o) -> sat outside p Q'.
Proof. intros Hp HQ w. apply HQ, Hp. Qed.

Lemma sat_Do {A X} (a : action X) (k : X -> prog A)
  (Q : list event -> outcome failure A -> Prop) :
  (forall f, Q [event_of a] (Failed f)) ->
  (forall x, sat outside (k x) (fun tr o => Q (event_of a :: tr) o)) ->
  sat outside (Do a k) Q.
Proof.
  intros Hf Hk w. simpl. destruct (outside X a w) as [[f|x] w']; [apply Hf|].
  specialize (Hk x w'). destruct (run outside (k x) w') as [[o tr] w'']. exact Hk.
Qed.

Lemma sat_then {A B} (p : prog A) (k : A -> prog B)
  (Q : list event -> outcome failure B -> Prop) :
  sat outside p (fun tr o =>
           match o with
           | Returned a => sat outside (k a) (fun tr' o' => Q (tr ++ tr') o')
           | Raised e => Q tr (Raised e)
           | Failed f => Q tr (Failed f)
           end) ->
  sat outside (then_ p k) Q.
Proof.
  intros Hp w. rewrite run_then. specialize (Hp w).
  destruct (run outside p w) as [[[a|e|f] tr] w']; simpl in *; try exact Hp.
  specialize (Hp w'). destruct (run outside (k a) w') as [[o tr'] w'']. exact Hp.
Qed.

Lemma sat_print_indented (lines : list str) : sat outside (print_indented lines) log_only.
Proof.
  induction lines as [|l lines IH]; intros w.
  - simpl. split; [constructor | discriminate].
  - revert w. change (sat outside (Do (call_print_stderr (u "    " ++ l))
                             (fun _ => print_indented lines)) log_only).
    apply sat_Do.
    + intros f. split; [repeat constructor | discriminate].
    + intros []. eapply sat_mono; [apply IH|].
      intros tr o [Htr Ho]. split; [constructor; [reflexivity | exact Htr] | exact Ho].
Qed.

Lemma sat_Return_tt : sat outside (Return tt) log_only.
Proof. intros w. simpl. split; [constructor | discriminate]. Qed.

Lemma sat_log (verbose : bool) (message : str) : sat outside (_log verbose message) log_only.
Proof.
  destruct verbose; [|apply sat_Return_tt].
  apply sat_Do.
  - intros f. split; [repeat constructor | discriminate].
  - intros []. intros w. simpl. split; [repeat constructor | discriminate].
Qed.

Lemma sat_log_errors (verbose : bool) (errs : list str) :
  sat outside (_log_errors verbose errs) log_only.
Proof. destruct verbose; [apply sat_print_indented | apply sat_Return_tt]. Qed.

Lemma sat_log_warnings (verbose : bool) (warns : list str) :
  sat outside (_log_warnings verbose warns) log_only.
Proof.
  unfold _log_warnings.
  destruct (negb verbose || negb (nonempty warns));
    [apply sat_Return_tt | apply sat_print_indented].
Qed.

Lemma sat_log_warnings_if (verbose : bool) (warns : list str) :
  sat outside (if nonempty warns then _log_warnings verbose warns else Return tt) log_only.
Proof. destruct (nonempty warns); [apply sat_log_warnings | apply sat_Return_tt]. Qed.

Lemma sat_calls_mono {A} (p : prog A) (P P' : list event -> outcome failure A -> Prop) :
  sat_calls outside p P -> (forall c o, P c o -> P' c o) -> sat_calls outside p P'.
Proof. intros Hp HP. eapply sat_mono; [exact Hp|]. intros tr o. apply HP. Qed.

Lemma sat_calls_Return {A} (a : A) (P : list event -> outcome failure A -> Prop) :
  P [] (Returned a) -> sat_calls outside (Return a) P.
Proof. intros HP w. exact HP. Qed.

Lemma sat_calls_Do {A X} (a : action X) (k : X -> prog A)
  (P : list event -> outcome failure A -> Prop) :
  is_stderr (event_of a) = false ->
  (forall f, P [event_of a] (Failed f)) ->
  (forall x, sat_calls outside (k x) (fun c o => P (event_of a :: c) o)) ->
  sat_calls outside (Do a k) P.
Proof.
  intros Ha Hf Hk. apply sat_Do.
  - intros f. unfold calls. rewrite filter_cons_True by exact Ha. apply Hf.
  - intros x. eapply sat_mono; [apply (Hk x)|]. intros tr o HP. simpl in HP.
    unfold calls. rewrite filter_cons_True by exact Ha. exact HP.
Qed.

Lemma sat_calls_log {A} (p : prog unit) (k : unit -> prog A)
  (P : list event -> outcome failure A -> Prop) :
  sat outside p log_only ->
  (forall f, P [] (Failed f)) ->
  sat_calls outside (k tt) P ->
  sat_calls outside (then_ p k) P.
Proof.
  intros Hp Hf Hk. apply sat_then. eapply sat_mono; [exact Hp|].
  intros tr o [Htr Ho]. destruct o as [[]|e|f].
  - eapply sat_mono; [exact Hk|]. intros tr' o' HP. simpl in HP.
    rewrite calls_app, (calls_of_prints tr Htr). exact HP.
  - destruct (Ho e eq_refl).
  - rewrite (calls_of_prints tr Htr). apply Hf.
Qed.

Lemma sat_calls_lift {A B} (r : result A) (k : A -> prog B)
  (P : list event -> outcome failure B -> Prop) :
  (forall e, r = Raise e -> P [] (Raised e)) ->
  (forall a, r = Ok a -> sat_calls outside (k a) P) ->
  sat_calls outside (then_ (lift r) k) P.
Proof.
  intros He Ha. destruct r as [a|e]; simpl.
  - apply Ha. reflexivity.
  - intros w. apply He. reflexivity.
Qed.

Lemma loop_post_failed (description model : str) (tokens : gmap str str)
  (n : nat) (c : list event) (f : failure) :
  Forall (corrects_rejected description model tokens) c -> (length c <= n)%nat ->
  loop_post description model tokens n c (Failed f).
Proof. intros Hc Hn. split; [exact Hc|]. split; [exact Hn|]. intros code [=]. Qed.

Lemma loop_post_raised (description model : str) (tokens : gmap str str)
  (n : nat) (c : list event) (e : exn) :
  Forall (corrects_rejected description model tokens) c -> (length c <= n)%nat ->
  loop_post description model tokens n c (@Raised failure str e).
Proof. intros Hc Hn. split; [exact Hc|]. split; [exact Hn|]. intros code [=]. Qed.

Lemma retry_loop_post (description : str) (max_retries : Z) (model : str)
  (verbose : bool) (tokens : gmap str str) (attempts : list Z) :
  forall (code : str) (rpt : report),
    validate_component code tokens = Ok rpt -> is_valid rpt = false ->
    sat_calls outside (retry_loop description max_retries model verbose tokens attempts code rpt)
      (loop_post description model tokens (length attempts)).
Proof.
  induction attempts as [|attempt attempts IH]; intros code rpt Hv Hinv.
  - cbn [retry_loop]. apply sat_calls_log; [apply sat_log | |].
    + intros f. apply loop_post_failed; [constructor | simpl; lia].
    + apply sat_calls_Return. cbv beta. split; [constructor|]. split; [simpl; lia|].
      intros code' [= <-]. exists rpt. split; [exact Hv | right; reflexivity].
  - cbn [retry_loop length].
    assert (Hev : corrects_rejected description model tokens
                    (regenerate_event code (errors rpt) description tokens model)).
    { simpl. repeat split. exists rpt. repeat split; assumption. }
    apply sat_calls_log; [apply sat_log | |].
    { intros f. cbv beta. apply loop_post_failed; [constructor | simpl; lia]. }
    rewrite then_call. apply sat_calls_Do; [reflexivity | |].
    { intros f. cbv beta. apply loop_post_failed; [apply Forall_cons_2; [exact Hev | apply Forall_nil_2] | simpl; lia]. }
    intros code'.
    apply sat_calls_log; [apply sat_log | |].
    { intros f. cbv beta. apply loop_post_failed; [apply Forall_cons_2; [exact Hev | apply Forall_nil_2] | simpl; lia]. }
    apply sat_calls_log; [apply sat_log | |].
    { intros f. cbv beta. apply loop_post_failed; [apply Forall_cons_2; [exact Hev | apply Forall_nil_2] | simpl; lia]. }
    apply sat_calls_lift.
    { intros e _. cbv beta. apply loop_post_raised; [apply Forall_cons_2; [exact Hev | apply Forall_nil_2] | simpl; lia]. }
    intros rpt' Hv'. destruct (is_valid rpt') eqn:Hvalid.
    + apply sat_calls_log; [apply sat_log_warnings | |].
      { intros f. cbv beta. apply loop_post_failed; [apply Forall_cons_2; [exact Hev | apply Forall_nil_2] | simpl; lia]. }
      apply sat_calls_log; [apply sat_log | |].
      { intros f. cbv beta. apply loop_post_failed; [apply Forall_cons_2; [exact Hev | apply Forall_nil_2] | simpl; lia]. }
      apply sat_calls_Return. cbv beta. split; [apply Forall_cons_2; [exact Hev | apply Forall_nil_2]|].
      split; [simpl; lia|]. intros code'' [= <-]. exists rpt'.
      split; [exact Hv' | left; exact Hvalid].
    + apply sat_calls_log; [apply sat_log | |].
      { intros f. cbv beta. apply loop_post_failed; [apply Forall_cons_2; [exact Hev | apply Forall_nil_2] | simpl; lia]. }
      apply sat_calls_log; [apply sat_log_errors | |].
      { intros f. cbv beta. apply loop_post_failed; [apply Forall_cons_2; [exact Hev | apply Forall_nil_2] | simpl; lia]. }
      apply sat_calls_log; [apply sat_log_warnings_if | |].
      { intros f. cbv beta. apply loop_post_failed; [apply Forall_cons_2; [exact Hev | apply Forall_nil_2] | simpl; lia]. }
      eapply sat_calls_mono; [apply (IH code' rpt' Hv' Hvalid)|].
      intros c o (Hc & Hn & Hret). split; [apply Forall_cons_2; [exact Hev | exact Hc]|].
      split; [simpl; lia|]. intros code'' Ho.
      destruct (Hret code'' Ho) as (r & Hr & Hor). exists r. split; [exact Hr|].
      destruct Hor as [Hok | Hlen]; [left; exact Hok | right; simpl; lia].
Qed.

Lemma after_load_post (description : str) (max_retries : Z) (model : str)
  (verbose : bool) (tokens : gmap str str) (k : prog str) :
  k = (_ <~ _log verbose (u " Generating initial component...") ;;
       code <~ call (call_generate_component description tokens model) ;;
       _ <~ _log verbose (u " Initial generation complete.") ;;
       _ <~ _log verbose (u " Running design-system validation...") ;;
       rpt <~ lift (validate_component code tokens) ;;
       if is_valid rpt then
         _ <~ _log_warnings verbose (warnings rpt) ;;
         _ <~ _log verbose (u " Component passed all validation checks on first attempt.") ;;
         Return code
       else
         _ <~ _log verbose
                (u "  Validation found " ++ str_of_int (N.of_nat (length (errors rpt)))
                 ++ u " error(s) on first attempt:") ;;
         _ <~ _log_errors verbose (errors rpt) ;;
         _ <~ (if nonempty (warnings rpt)
               then _log_warnings verbose (warnings rpt)
               else Return tt) ;;
         retry_loop description max_retries model verbose tokens
           (range 1 (max_retries + 1)) code rpt) ->
  sat_calls outside k (generation_post description max_retries model tokens).
Proof.
  intros ->.
  assert (Hfail : forall regs (f : failure),
             Forall (corrects_rejected description model tokens) regs ->
             (length regs <= Z.to_nat max_retries)%nat ->
             generation_post description max_retries model tokens
               (generate_event description tokens model :: regs) (Failed f)).
  { intros regs f Hc Hn. right. exists regs. split; [reflexivity|].
    apply loop_post_failed; assumption. }
  apply sat_calls_log; [apply sat_log | |].
  { intros f. left. split; [reflexivity | exists f; reflexivity]. }
  rewrite then_call. apply sat_calls_Do; [reflexivity | |].
  { intros f. cbv beta. apply Hfail; [constructor | simpl; lia]. }
  intros code.
  apply sat_calls_log; [apply sat_log | |].
  { intros f. cbv beta. apply Hfail; [constructor | simpl; lia]. }
  apply sat_calls_log; [apply sat_log | |].
  { intros f. cbv beta. apply Hfail; [constructor | simpl; lia]. }
  apply sat_calls_lift.
  { intros e _. cbv beta. right. exists []. split; [reflexivity|].
    apply loop_post_raised; [constructor | simpl; lia]. }
  intros rpt Hv. destruct (is_valid rpt) eqn:Hvalid.
  - apply sat_calls_log; [apply sat_log_warnings | |].
    { intros f. cbv beta. apply Hfail; [constructor | simpl; lia]. }
    apply sat_calls_log; [apply sat_log | |].
    { intros f. cbv beta. apply Hfail; [constructor | simpl; lia]. }
    apply sat_calls_Return. cbv beta. right. exists []. split; [reflexivity|].
    split; [constructor|]. split; [simpl; lia|]. intros code' [= <-].
    exists rpt. split; [exact Hv | left; exact Hvalid].
  - apply sat_calls_log; [apply sat_log | |].
    { intros f. cbv beta. apply Hfail; [constructor | simpl; lia]. }
    apply sat_calls_log; [apply sat_log_errors | |].
    { intros f. cbv beta. apply Hfail; [constructor | simpl; lia]. }
    apply sat_calls_log; [apply sat_log_warnings_if | |].
    { intros f. cbv beta. apply Hfail; [constructor | simpl; lia]. }
    eapply sat_calls_mono; [apply (retry_loop_post _ _ _ _ _ _ code rpt Hv Hvalid)|].
    intros c o Hpost. right. exists c. split; [reflexivity|].
    unfold range in Hpost. rewrite length_seqZ in Hpost.
    replace (Z.to_nat (max_retries + 1 - 1)) with (Z.to_nat max_retries) in Hpost
      by (f_equal; lia).
    exact Hpost.
Qed.

(** The whole run, from the state [w] of the world. *)
Lemma run_agent_loop_post (description : str) (max_retries : Z) (model : str)
  (verbose : bool) (w : world) :
  let r := run outside (run_agent_loop description max_retries model verbose) w in
  match (outside _ call_load_design_system w).1 with
  | inl f => r.1.2 = [load_event] /\ r.1.1 = Failed f
  | inr tokens =>
      exists c, calls r.1.2 = load_event :: c
                /\ generation_post description max_retries model tokens c r.1.1
  end.
Proof.
  unfold run_agent_loop. rewrite then_call. cbn [run].
  destruct (outside _ call_load_design_system w) as [[f|tokens] w1]; cbn [fst].
  - split; reflexivity.
  - pose proof (after_load_post description max_retries model verbose tokens _ eq_refl w1)
      as Hpost.
    cbv beta in Hpost.
    match type of Hpost with
    | context [run outside ?p w1] =>
        destruct (run outside p w1) as [[o tr] w2]
    end.
    cbn [fst snd] in *. exists (calls tr). split; [reflexivity | exact Hpost].
Qed.

End LoopFacts.

Section LoopTheorems.
Context `{PyUnicode} `{PyPrintable}.
Variables (world failure : Type).
Variable outside : forall X, action X -> world -> (failure + X) * world.
Variables (description : str) (max_retries : Z) (model : str) (verbose : bool).

Lemma in_calls (e : event) (tr : list event) :
  is_stderr e = false -> e ∈ tr -> e ∈ calls tr.
Proof. intros He Hin. apply list_elem_of_filter. split; assumption. Qed.

Lemma corrections_are_regenerations (tokens : gmap str str) (regs : list event) :
  Forall (corrects_rejected description model tokens) regs ->
  Forall (fun e => is_regenerate e = true) regs.
Proof.
  intros Hregs. eapply Forall_impl; [exact Hregs|].
  intros e He. destruct e; simpl in He; try destruct He. reflexivity.
Qed.

Lemma regenerations_all (regs : list event) :
  Forall (fun e => is_regenerate e = true) regs -> regenerations regs = length regs.
Proof.
  induction 1 as [|e regs He _ IH]; [reflexivity|].
  unfold regenerations in *. rewrite filter_cons_True by exact He. simpl. f_equal. exact IH.
Qed.

(** X16. Whatever the outside answers, the calls of a run other than its
    prints are: the design system read once, first; then at most one
    generation, for the description and the model given and under the
    tokens read; then corrections only, at most max_retries of them, and
    none when max_retries is zero or negative. *)
Theorem calls_are_load_generate_then_bounded_corrections (w : world) :
  let tr := (run outside (run_agent_loop description max_retries model verbose) w).1.2 in
  (exists rest,
     calls tr = load_event :: rest
     /\ (rest = []
         \/ exists tokens regs,
              (outside _ call_load_design_system w).1 = inr tokens
              /\ rest = generate_event description tokens model :: regs
              /\ Forall (fun e => is_regenerate e = true) regs
              /\ (length regs <= Z.to_nat max_retries)%nat))
  /\ (regenerations tr <= Z.to_nat max_retries)%nat.
Proof.
  intros tr. subst tr.
  pose proof (run_agent_loop_post world failure outside
                description max_retries model verbose w) as Hpost.
  cbv zeta in Hpost. rewrite <- regenerations_of_calls.
  destruct ((outside _ call_load_design_system w).1) as [f|tokens] eqn:Hload.
  - destruct Hpost as [-> _].
    split; [|change (regenerations (calls [load_event])) with 0%nat; lia].
    exists []. split; [reflexivity | left; reflexivity].
  - destruct Hpost as (c & -> & [[-> _] | (regs & -> & Hregs & Hlen & _)]).
    + split; [|change (regenerations [load_event]) with 0%nat; lia]. exists []. split; [reflexivity | left; reflexivity].
    + apply corrections_are_regenerations in Hregs. split.
      * eexists. split; [reflexivity|]. right. exists tokens, regs.
        repeat split; assumption.
      * change (regenerations (load_event :: generate_event description tokens model :: regs))
          with (regenerations regs).
        rewrite (regenerations_all regs Hregs). exact Hlen.
Qed.

(** X17. A code that a run returns has been through the validator under
    the design system read at the start, without an exception; and either
    the validator accepted it, or max_retries corrections (none for a
    zero or negative max_retries) had been asked. *)
Theorem returned_code_is_accepted_or_retries_are_spent (w : world) (code : str) :
  (run outside (run_agent_loop description max_retries model verbose) w).1.1
  = Returned code ->
  exists tokens r,
    (outside _ call_load_design_system w).1 = inr tokens
    /\ validate_component code tokens = Ok r
    /\ (is_valid r = true
        \/ regenerations
             (run outside (run_agent_loop description max_retries model verbose) w).1.2
           = Z.to_nat max_retries).
Proof.
  intros Hret.
  pose proof (run_agent_loop_post world failure outside
                description max_retries model verbose w) as Hpost.
  cbv zeta in Hpost. rewrite <- regenerations_of_calls.
  destruct ((outside _ call_load_design_system w).1) as [f|tokens] eqn:Hload.
  - destruct Hpost as [_ Hf]. rewrite Hret in Hf. discriminate.
  - destruct Hpost as (c & Hc & [[_ [f Hf]] | (regs & -> & Hregs & Hlen & Hcode)]).
    + rewrite Hret in Hf. discriminate.
    + destruct (Hcode code Hret) as (r & Hr & Hor). exists tokens, r.
      split; [reflexivity|]. split; [exact Hr|].
      destruct Hor as [Hok | Hn]; [left; exact Hok | right].
      rewrite Hc.
      change (regenerations (load_event :: generate_event description tokens model :: regs))
        with (regenerations regs).
      rewrite (regenerations_all regs (corrections_are_regenerations _ _ Hregs)).
      exact Hn.
Qed.

(** X18. The model is asked to correct only a code that the validator
    rejected: each correction is asked for the description and the model
    of the run, under the design system read at the start, of a code that
    is not valid under it, with exactly the errors that the validator
    reported on that code. *)
Theorem only_rejected_code_is_sent_for_correction (w : world)
  (original_code : str) (errs : list str) (description' : str)
  (tokens' : gmap str str) (model' : str) :
  regenerate_event original_code errs description' tokens' model'
    ∈ (run outside (run_agent_loop description max_retries model verbose) w).1.2 ->
  description' = description /\ model' = model
  /\ (outside _ call_load_design_system w).1 = inr tokens'
  /\ exists r, validate_component original_code tokens' = Ok r
               /\ is_valid r = false /\ errs = errors r.
Proof.
  intros Hin. apply in_calls in Hin; [|reflexivity].
  pose proof (run_agent_loop_post world failure outside
                description max_retries model verbose w) as Hpost.
  cbv zeta in Hpost.
  destruct ((outside _ call_load_design_system w).1) as [f|tokens] eqn:Hload.
  - destruct Hpost as [Htr _]. rewrite Htr in Hin.
    apply elem_of_cons in Hin as [Hin | Hin]; [discriminate | inversion Hin].
  - destruct Hpost as (c & Hc & [[-> _] | (regs & -> & Hregs & _)]); rewrite Hc in Hin.
    + apply elem_of_cons in Hin as [Hin | Hin]; [discriminate | inversion Hin].
    + apply elem_of_cons in Hin as [Hin | Hin]; [discriminate|].
      apply elem_of_cons in Hin as [Hin | Hin]; [discriminate|].
      rewrite Forall_forall in Hregs. specialize (Hregs _ Hin). simpl in Hregs.
      destruct Hregs as (-> & -> & -> & r & Hr & Hv & ->).
      repeat split. exists r. repeat split; assumption.
Qed.

End LoopTheorems.

(** A run in which the first answer of the model is rejected and the
    second accepted. *)
Lemma returned_code_is_accepted_or_retries_are_spent_witness :
  exists tokens r,
    (scripted _ call_load_design_system [u "x"; demo_code]).1 = inr tokens
    /\ @validate_component ascii_tables demo_code tokens = Ok r
    /\ (is_valid r = true
        \/ regenerations
             (run scripted
                (@run_agent_loop ascii_tables ascii_printable
                   (u "a card") 2 (u "llama-3.3-70b-versatile") false)
                [u "x"; demo_code]).1.2
           = Z.to_nat 2).
Proof.
  apply (@returned_code_is_accepted_or_retries_are_spent ascii_tables ascii_printable
           (list str) unit scripted).
  vm_compute. reflexivity.
Defined.

(** The correction asked in that run. *)
Lemma only_rejected_code_is_sent_for_correction_witness :
  u "a card" = u "a card" /\ u "m" = u "m"
  /\ (scripted _ call_load_design_system [u "x"; demo_code]).1 = inr demo_tokens
  /\ exists r, @validate_component ascii_tables (u "x") demo_tokens = Ok r
               /\ is_valid r = false
               /\ [missing_primary_msg (u "#6366f1"); missing_radius_msg (u "8px");
                   missing_font_msg (u "Inter")]
                  ++ @validate_structure ascii_tables (u "x") = errors r.
Proof.
  apply (@only_rejected_code_is_sent_for_correction ascii_tables ascii_printable
           (list str) unit scripted (u "a card") 2 (u "m") false [u "x"; demo_code]).
  vm_compute. apply list_elem_of_In. simpl. right. right. left. reflexivity.
Defined.

(** ** What [verbose] changes *)

Section Verbosity.
Context `{PyUnicode} `{PyPrintable}.
Variables (world failure : Type).
Variable outside : forall X, action X -> world -> (failure + X) * world.
Variables (description : str) (max_retries : Z) (model : str).

Lemma quiet_retry_loop (tokens : gmap str str) (attempts : list Z) :
  forall (code : str) (rpt : report),
    sat outside
      (retry_loop description max_retries model false tokens attempts code rpt) no_print.
Proof.
  induction attempts as [|attempt attempts IH]; intros code rpt.
  - intros w. constructor.
  - cbn [retry_loop _log then_ call]. apply sat_Do.
    + intros f. repeat constructor.
    + intros code'. cbn [then_].
      destruct (validate_component code' tokens) as [rpt'|e]; cbn [lift then_].
      * destruct (is_valid rpt').
        -- intros w. repeat constructor.
        -- cbn [_log_errors _log_warnings negb orb then_].
           assert (E : (if nonempty (warnings rpt') then Return tt else Return tt)
                       = @Return unit tt) by (destruct (nonempty _); reflexivity).
           rewrite E. cbn [then_].
           eapply sat_mono; [apply IH|]. intros tr o Htr. constructor; [reflexivity | exact Htr].
      * intros w. repeat constructor.
Qed.

Lemma quiet_run_agent_loop :
  sat outside (run_agent_loop description max_retries model false) no_print.
Proof.
  unfold run_agent_loop. cbn [_log then_ call]. apply sat_Do.
  - intros f. repeat constructor.
  - intros tokens. apply sat_Do.
    + intros f. repeat constructor.
    + intros code. cbn [then_].
      destruct (validate_component code tokens) as [rpt|e]; cbn [lift then_].
      * destruct (is_valid rpt); cbn [_log_errors _log_warnings negb orb then_].
        -- intros w'. repeat constructor.
        -- assert (E : (if nonempty (warnings rpt) then Return tt else Return tt)
                       = @Return unit tt) by (destruct (nonempty _); reflexivity).
           rewrite E. cbn [then_].
           eapply sat_mono; [apply quiet_retry_loop|].
           intros tr o Htr. repeat (constructor; [reflexivity|]). exact Htr.
      * intros w'. repeat constructor.
Qed.

(** X19. With verbose false a run prints nothing: whatever the outside
    answers, no call of the run is a print to stderr. *)
Theorem quiet_run_prints_nothing (w : world) (message : str) :
  stderr_event message
    ∉ (run outside (run_agent_loop description max_retries model false) w).1.2.
Proof.
  pose proof (quiet_run_agent_loop w) as Hq.
  unfold no_print in Hq. rewrite Forall_forall in Hq.
  intros Hin. specialize (Hq _ Hin). discriminate.
Qed.

(** Printing succeeds and leaves the world as it is. *)
Hypothesis printing_succeeds :
  forall (message : str) (w : world),
    outside unit (call_print_stderr message) w = (inr tt, w).

Lemma silent_Return : silent outside (Return tt).
Proof. intros w. exists []. split; [reflexivity | constructor]. Qed.

Lemma silent_print_indented (lines : list str) : silent outside (print_indented lines).
Proof.
  induction lines as [|l lines IH]; [apply silent_Return|].
  intros w. cbn [print_indented then_ call run]. rewrite printing_succeeds.
  destruct (IH w) as (tr & -> & Htr). eexists. split; [reflexivity|].
  constructor; [reflexivity | exact Htr].
Qed.

Lemma silent_log (verbose : bool) (message : str) : silent outside (_log verbose message).
Proof.
  destruct verbose; [|apply silent_Return].
  intros w. cbn [_log call run]. rewrite printing_succeeds.
  eexists. split; [reflexivity | repeat constructor].
Qed.

Lemma silent_log_errors (verbose : bool) (errs : list str) :
  silent outside (_log_errors verbose errs).
Proof. destruct verbose; [apply silent_print_indented | apply silent_Return]. Qed.

Lemma silent_log_warnings (verbose : bool) (warns : list str) :
  silent outside (_log_warnings verbose warns).
Proof.
  unfold _log_warnings.
  destruct (negb verbose || negb (nonempty warns));
    [apply silent_Return | apply silent_print_indented].
Qed.

Lemma silent_log_warnings_if (verbose : bool) (warns : list str) :
  silent outside (if nonempty warns then _log_warnings verbose warns else Return tt).
Proof. destruct (nonempty warns); [apply silent_log_warnings | apply silent_Return]. Qed.

Lemma observed_then_silent {A} (p : prog unit) (k : unit -> prog A) (w : world) :
  silent outside p ->
  observed (run outside (then_ p k) w) = observed (run outside (k tt) w).
Proof.
  intros Hp. rewrite run_then. destruct (Hp w) as (tr & -> & Htr).
  destruct (run outside (k tt) w) as [[o tr'] w']. unfold observed. cbn [fst snd].
  rewrite calls_app, (calls_of_prints tr Htr). reflexivity.
Qed.

Lemma observed_Do {A X} (a : action X) (k k' : X -> prog A) (w : world) :
  (forall x w', observed (run outside (k x) w') = observed (run outside (k' x) w')) ->
  observed (run outside (Do a k) w) = observed (run outside (Do a k') w).
Proof.
  intros Hk. cbn [run]. destruct (outside X a w) as [[f|x] w']; [reflexivity|].
  specialize (Hk x w').
  destruct (run outside (k x) w') as [[o tr] w1].
  destruct (run outside (k' x) w') as [[o' tr'] w1'].
  unfold observed in *. cbn [fst snd] in *.
  injection Hk as -> Htr ->. f_equal. f_equal.
  unfold calls in *. destruct (decide (is_stderr (event_of a) = false)) as [Ha|Ha].
  - rewrite !filter_cons_True by exact Ha. f_equal. exact Htr.
  - rewrite !filter_cons_False by exact Ha. exact Htr.
Qed.

Lemma observed_lift {A B} (r : result A) (k k' : A -> prog B) (w : world) :
  (forall a, observed (run outside (k a) w) = observed (run outside (k' a) w)) ->
  observed (run outside (then_ (lift r) k) w)
  = observed (run outside (then_ (lift r) k') w).
Proof. intros Hk. destruct r as [a|e]; [apply Hk | reflexivity]. Qed.

Ltac skip_logs :=
  rewrite ?observed_then_silent
    by first [ apply silent_log | apply silent_log_errors
             | apply silent_log_warnings_if | apply silent_log_warnings ].

Lemma observed_retry_loop (verbose : bool) (tokens : gmap str str) (attempts : list Z) :
  forall (code : str) (rpt : report) (w : world),
    observed (run outside
                (retry_loop description max_retries model verbose tokens attempts code rpt) w)
    = observed (run outside
                  (retry_loop description max_retries model false tokens attempts code rpt) w).
Proof.
  induction attempts as [|attempt attempts IH]; intros code rpt w; cbn [retry_loop].
  - skip_logs. reflexivity.
  - skip_logs. rewrite !then_call. apply observed_Do. intros code' w'.
    skip_logs. apply observed_lift. intros rpt'.
    destruct (is_valid rpt'); skip_logs; [reflexivity | apply IH].
Qed.

Lemma observed_run_agent_loop (verbose : bool) (w : world) :
  observed (run outside (run_agent_loop description max_retries model verbose) w)
  = observed (run outside (run_agent_loop description max_retries model false) w).
Proof.
  unfold run_agent_loop. rewrite !then_call.
  apply observed_Do. intros tokens w1. skip_logs. rewrite !then_call.
  apply observed_Do. intros code w2. skip_logs.
  apply observed_lift. intros rpt.
  destruct (is_valid rpt); skip_logs; [reflexivity | apply observed_retry_loop].
Qed.

Lemma quiet_calls (w : world) :
  calls (run outside (run_agent_loop description max_retries model false) w).1.2
  = (run outside (run_agent_loop description max_retries model false) w).1.2.
Proof. apply calls_of_quiet. exact (quiet_run_agent_loop w). Qed.

(** X20. When printing succeeds and leaves the world as it is, verbose
    changes nothing but the prints: a verbose run and a quiet one started
    in the same world end in the same way (the same code returned, the
    same exception or the same failure), make the same calls to the design
    system and to the model, in the same order and with the same
    arguments, and leave the same world. *)
Theorem verbose_changes_only_the_prints (verbose : bool) (w : world) :
  let loud := run outside (run_agent_loop description max_retries model verbose) w in
  let quiet := run outside (run_agent_loop description max_retries model false) w in
  loud.1.1 = quiet.1.1 /\ calls loud.1.2 = quiet.1.2 /\ loud.2 = quiet.2.
Proof.
  intros loud quiet.
  pose proof (observed_run_agent_loop verbose w) as E.
  fold loud in E. fold quiet in E.
  unfold observed in E. injection E as E1 E2 E3.
  subst quiet. rewrite quiet_calls in E2. auto.
Qed.

(** X21. When printing succeeds, the code generated first is returned as
    it is, and the model is asked for no correction, in two cases: the
    validator accepts that code, or max_retries is zero or negative (the
    code is then returned whether accepted or not). *)
Theorem first_code_is_returned_when_accepted_or_without_retries
  (verbose : bool) (w w1 w2 : world) (tokens : gmap str str) (code : str) (r : report) :
  outside _ call_load_design_system w = (inr tokens, w1) ->
  outside _ (call_generate_component description tokens model) w1 = (inr code, w2) ->
  validate_component code tokens = Ok r ->
  is_valid r = true \/ (max_retries <= 0)%Z ->
  let res := run outside (run_agent_loop description max_retries model verbose) w in
  res.1.1 = Returned code
  /\ calls res.1.2 = [load_event; generate_event description tokens model]
  /\ res.2 = w2.
Proof.
  intros Hload Hgen Hv Hcase res.
  pose proof (observed_run_agent_loop verbose w) as E. fold res in E.
  assert (Hq : run outside (run_agent_loop description max_retries model false) w
               = (Returned code,
                  [load_event; generate_event description tokens model], w2)).
  { unfold run_agent_loop. cbn [_log then_ call run]. rewrite Hload.
    cbn [then_ run]. rewrite Hgen. rewrite Hv. cbn [lift then_].
    destruct (is_valid r) eqn:Hvalid.
    - reflexivity.
    - destruct Hcase as [? | Hle]; [discriminate|].
      assert (Hr : range 1 (max_retries + 1) = []).
      { unfold range, seqZ. replace (Z.to_nat (max_retries + 1 - 1)) with 0%nat by lia.
        reflexivity. }
      rewrite Hr. cbn [_log_errors _log_warnings negb orb then_ retry_loop _log].
      destruct (nonempty (warnings r)); reflexivity. }
  rewrite Hq in E. unfold observed in E. cbn [fst snd] in E.
  injection E as E1 E2 E3. auto.
Qed.

End Verbosity.

(** A verbose run against the scripted outside. *)
Lemma verbose_changes_only_the_prints_witness :
  let loud :=
    run scripted
      (@run_agent_loop ascii_tables ascii_printable (u "a card") 2 (u "m") true)
      [u "x"; demo_code] in
  let quiet :=
    run scripted
      (@run_agent_loop ascii_tables ascii_printable (u "a card") 2 (u "m") false)
      [u "x"; demo_code] in
  loud.1.1 = quiet.1.1 /\ calls loud.1.2 = quiet.1.2 /\ loud.2 = quiet.2.
Proof.
  apply (@verbose_changes_only_the_prints ascii_tables ascii_printable
           (list str) unit scripted).
  intros message w. reflexivity.
Defined.

(** A verbose run in which the first answer of the model is accepted. *)
Lemma first_code_is_returned_when_accepted_or_without_retries_witness :
  let res :=
    run scripted
      (@run_agent_loop ascii_tables ascii_printable (u "a card") 2 (u "m") true)
      [demo_code; u "x"] in
  res.1.1 = Returned demo_code
  /\ calls res.1.2 = [load_event; generate_event (u "a card") demo_tokens (u "m")]
  /\ res.2 = [u "x"].
Proof.
  refine (@first_code_is_returned_when_accepted_or_without_retries
            ascii_tables ascii_printable (list str) unit scripted
            (u "a card") 2 (u "m") _ true [demo_code; u "x"] [demo_code; u "x"] [u "x"]
            demo_tokens demo_code
            {| is_valid := true; errors := []; warnings := [] |} _ _ _ _).
  - intros message w. reflexivity.
  - reflexivity.
  - reflexivity.
  - vm_compute. reflexivity.
  - left. reflexivity.
Defined.
